(** * Scales, arpeggios and rhythm lines of [app.py]

    A shallow embedding of the note-sequence and measure-layout code of
    [src/app.py]: the enharmonic speller, the clef and octave lookup,
    the scale and arpeggio sequencers with their measure loops, the
    rhythm line and the assembly of parts into a score.

    The notation objects of the music library the program imports
    (pitches, notes, streams) are modelled by the records of the first
    modules below; each says which behaviour of the library it stands
    for.  Python exceptions are the [None] of an [option]. *)

From Stdlib Require Import ZArith QArith String Ascii List Lia.
From stdpp Require Import base option list strings pretty gmap.

Local Open Scope string_scope.
Local Open Scope list_scope.
Local Open Scope Z_scope.

Notation "'do' x <- m ; k" := (mbind (fun x => k) m)
  (at level 10, x name, m at level 100, k at level 200,
   format "'[v' 'do'  x  <-  m ;  '/' k ']'").

(** ** Pitches *)

Module Pitch.

Inductive Step := C | D | E | F | G | A | B.

#[global] Instance Step_eq_dec : EqDecision Step.
Proof. solve_decision. Defined.

(** An accidental: its alteration in semitones (0 is an explicit
    natural; microtonal accidentals are left out) and the two display
    attributes the program writes. *)
Record Accidental := mkAccidental {
  alter : Z;
  displayStatus : option bool;
  displayType : string
}.

#[global] Instance Accidental_eq_dec : EqDecision Accidental.
Proof. solve_decision. Defined.

(** A pitch as in section 3 of the specification: a letter, an
    optional accidental and an integer octave. *)
Record t := mk {
  step : Step;
  accidental : option Accidental;
  octave : Z
}.

#[global] Instance eq_dec : EqDecision t.
Proof. solve_decision. Defined.

Definition step_letter (s : Step) : string :=
  match s with
  | C => "C" | D => "D" | E => "E" | F => "F" | G => "G" | A => "A" | B => "B"
  end.

Fixpoint repeat_char (c : ascii) (n : nat) : string :=
  match n with
  | O => ""
  | S n' => String c (repeat_char c n')
  end.

(** The library writes a sharp as [#] and a flat as [-], one sign per
    semitone; a natural has the empty modifier. *)
Definition modifier (a : Accidental) : string :=
  if 0 <=? alter a then repeat_char "#" (Z.to_nat (alter a))
  else repeat_char "-" (Z.to_nat (- alter a)).

(** [p.name]: the letter followed by the accidental's modifier, so
    [E#] for E sharp and [C-] for C flat. *)
Definition name (p : t) : string :=
  match accidental p with
  | Some a => step_letter p.(step) +:+ modifier a
  | None => step_letter p.(step)
  end.

Definition step_of_ascii (c : ascii) : option Step :=
  if bool_decide (c = "C" \/ c = "c")%char then Some C
  else if bool_decide (c = "D" \/ c = "d")%char then Some D
  else if bool_decide (c = "E" \/ c = "e")%char then Some E
  else if bool_decide (c = "F" \/ c = "f")%char then Some F
  else if bool_decide (c = "G" \/ c = "g")%char then Some G
  else if bool_decide (c = "A" \/ c = "a")%char then Some A
  else if bool_decide (c = "B" \/ c = "b")%char then Some B
  else None.

(** The length of [s] when all of it is copies of [c]; [None]
    otherwise. *)
Fixpoint all_char (c : ascii) (s : string) : option nat :=
  match s with
  | "" => Some O
  | String c' s' => if bool_decide (c' = c) then S <$> all_char c s' else None
  end.

(** The accidental a modifier string denotes, for the spellings the
    model covers: one to four sharps [#] or flats [-], one sign per
    semitone, and the single [b], which the library also reads as a
    flat.  Longer runs and a doubled [b] the library refuses.  The
    accidental names the library reads besides ([n], [sharp], the
    microtonal signs) are outside the model and read as [None] too.
    A fresh accidental has no display status and display type
    [normal]. *)
Definition accidental_of_modifier (s : string) : option Accidental :=
  if bool_decide (s = "b") then Some (mkAccidental (-1) None "normal")
  else
    match all_char "#" s, all_char "-" s with
    | Some n, _ =>
        if bool_decide (1 <= n <= 4)%nat
        then Some (mkAccidental (Z.of_nat n) None "normal") else None
    | None, Some n =>
        if bool_decide (1 <= n <= 4)%nat
        then Some (mkAccidental (- Z.of_nat n) None "normal") else None
    | None, None => None
    end.

Definition is_digit (c : ascii) : bool :=
  bool_decide (48 <= nat_of_ascii c <= 57)%nat.

Fixpoint filter_chars (f : ascii -> bool) (s : string) : string :=
  match s with
  | "" => ""
  | String c s' => if f c then String c (filter_chars f s') else filter_chars f s'
  end.

Fixpoint int_of_digits (acc : Z) (s : string) : Z :=
  match s with
  | "" => acc
  | String c s' => int_of_digits (10 * acc + (Z.of_nat (nat_of_ascii c) - 48)) s'
  end.

(** [p.name = usrStr]: digits anywhere in the string are an octave,
    the first remaining character is the step, the rest the
    accidental; a one-letter name clears the accidental.  [None] is
    the library's exception on a string it cannot read. *)
Definition set_name (usrStr : string) (p : t) : option t :=
  let octFound := filter_chars is_digit usrStr in
  let octNot := filter_chars (fun c => negb (is_digit c)) usrStr in
  let oct := if bool_decide (octFound = "") then octave p else int_of_digits 0 octFound in
  match octNot with
  | "" => None
  | String c "" => do st <- step_of_ascii c; Some (mk st None oct)
  | String c rest =>
      do st <- step_of_ascii c;
      do a <- accidental_of_modifier rest;
      Some (mk st (Some a) oct)
  end.

(** [Pitch(nameWithOctave)], for strings that carry an octave. *)
Definition of_string (s : string) : option t :=
  if bool_decide (filter_chars is_digit s = "") then None
  else set_name s (mk C None 4).

(** [str(z)] of a Python integer. *)
Definition str_of_int (z : Z) : string := pretty z.

Definition nameWithOctave (p : t) : string := name p +:+ str_of_int (octave p).

End Pitch.

(** ** Durations and notes *)

(** [duration.Duration(x)]: a type name such as ['whole'], or a
    length in quarter notes. *)
Inductive Duration :=
| DurationType (type : string)
| DurationLength (quarterLength : Q).

Record Note := mkNote {
  pitch : option Pitch.t;
  duration : Duration
}.

(** [note.Note(p)]: a new note on pitch [p] with the default quarter
    duration. *)
Definition Note_of_pitch (p : Pitch.t) : Note :=
  mkNote (Some p) (DurationType "quarter").

Definition set_duration (d : Duration) (n : Note) : Note :=
  mkNote (pitch n) d.

(** The largest denominator the library keeps in a length. *)
Definition DENOM_LIMIT : Z := 65535.

(** The loop of the library's [_preFracLimitDenominator]: the
    convergents of [n / d], up to the last whose denominator is within
    the limit.  The loop is entered with a denominator above the
    limit; the denominators of the convergents then pass the limit
    within twenty-five rounds, which the fuel covers. *)
Fixpoint limit_denominator_loop (fuel : nat) (n d p0 q0 p1 q1 : Z) : Z * Z * Z * Z :=
  match fuel with
  | O => (p0, q0, p1, q1)
  | S fuel' =>
      let a := n / d in
      let q2 := q0 + a * q1 in
      if DENOM_LIMIT <? q2 then (p0, q0, p1, q1)
      else limit_denominator_loop fuel' d (n - a * d) p1 q1 (p0 + a * p1) q2
  end.

(** The fraction with a denominator within the limit that lies
    closest to [n / d]. *)
Definition preFracLimitDenominator (n d : Z) : Q :=
  let '(p0, q0, p1, q1) := limit_denominator_loop 64 n d 0 1 1 0 in
  let k := (DENOM_LIMIT - q0) / q1 in
  let bound1n := p0 + k * p1 in
  let bound1d := q0 + k * q1 in
  let bound2n := p1 in
  let bound2d := q1 in
  let bound1minusS := (Z.abs (bound1n * d - n * bound1d), d * bound1d) in
  let bound2minusS := (Z.abs (bound2n * d - n * bound2d), d * bound2d) in
  let difference := bound1minusS.1 * bound2minusS.2 - bound2minusS.1 * bound1minusS.2 in
  if 0 <? difference then Qmake bound2n (Z.to_pos bound2d)
  else Qmake bound1n (Z.to_pos bound1d).

(** The library's [opFrac], which every length goes through: a number
    in lowest terms is kept when its denominator is within the limit
    and replaced by the closest fraction within the limit otherwise.
    The argument is the exact value of the Python number. *)
Definition opFrac (num : Q) : Q :=
  let ir := Qred num in
  if Z.pos (Qden ir) <=? DENOM_LIMIT then ir
  else Qred (preFracLimitDenominator (Qnum ir) (Z.pos (Qden ir))).

(** ** The tables and the speller *)

Definition ENHARM_MAP : gmap string (string * Z) :=
  list_to_map [
    ("E#", ("F", 0));
    ("B#", ("C", 1));
    ("Cb", ("B", -1));
    ("Fb", ("E", 0))
  ].

Definition EASIEST_NOTE_MAP : gmap string string :=
  list_to_map [
    ("Piano", "C4");
    ("Alto Saxophone", "D4");
    ("Violin", "G3");
    ("Flute", "G4");
    ("Clarinet", "E4")
  ].

Definition show_accidental (a : Pitch.Accidental) : Pitch.Accidental :=
  Pitch.mkAccidental (Pitch.alter a) (Some true) "normal".

(** [fix_enharmonic_spelling(n)].  The function mutates [n] in place
    and returns nothing; here it returns the note as it is afterwards.
    A note without a pitch is left alone; a name that is a key of
    [ENHARM_MAP] is replaced through the name setter and the octave
    moved; an accidental still there is then made visible. *)
Definition fix_enharmonic_spelling (n : Note) : option Note :=
  match pitch n with
  | None => Some n
  | Some p =>
      let original_name := Pitch.name p in
      do p1 <- match ENHARM_MAP !! original_name with
               | Some (new_name, octave_adjust) =>
                   do q <- Pitch.set_name new_name p;
                   Some (Pitch.mk (Pitch.step q) (Pitch.accidental q)
                                  (Pitch.octave q + octave_adjust))
               | None => Some p
               end;
      let p2 := match Pitch.accidental p1 with
                | Some a => Pitch.mk (Pitch.step p1) (Some (show_accidental a)) (Pitch.octave p1)
                | None => p1
                end in
      Some (mkNote (Some p2) (duration n))
  end.

(** ** Clef and starting octave *)

(** What [determine_clef_and_octave] returns: a dictionary from hand
    to (clef, octave) for the piano, one (clef, octave) pair otherwise. *)
Inductive ClefOctave :=
| ClefDict (d : gmap string (string * Z))
| ClefPair (c : string * Z).

#[global] Instance ClefOctave_eq_dec : EqDecision ClefOctave.
Proof. solve_decision. Defined.

Definition instrument_map : gmap string (string * Z) :=
  list_to_map [
    ("Violin", ("TrebleClef", 3));
    ("Viola", ("AltoClef", 3));
    ("Cello", ("BassClef", 2));
    ("Double Bass", ("BassClef", 1));
    ("Guitar", ("TrebleClef", 3));
    ("Harp", ("TrebleClef", 3));
    ("Alto Saxophone", ("TrebleClef", 4));
    ("Bass Clarinet", ("TrebleClef", 2));
    ("Bassoon", ("BassClef", 2));
    ("Clarinet", ("TrebleClef", 3));
    ("English Horn", ("TrebleClef", 4));
    ("Flute", ("TrebleClef", 4));
    ("Oboe", ("TrebleClef", 4));
    ("Piccolo", ("TrebleClef", 5));
    ("Tenor Saxophone", ("TrebleClef", 3));
    ("Trumpet", ("TrebleClef", 4));
    ("Euphonium", ("BassClef", 2));
    ("French Horn", ("TrebleClef", 3));
    ("Trombone", ("BassClef", 2));
    ("Tuba", ("BassClef", 1));
    ("Marimba", ("TrebleClef", 3));
    ("Timpani", ("BassClef", 3));
    ("Vibraphone", ("TrebleClef", 3));
    ("Xylophone", ("TrebleClef", 4));
    ("Electric Piano", ("TrebleClef", 4));
    ("Organ", ("TrebleClef", 4));
    ("Voice", ("TrebleClef", 4))
  ].

Definition unpitched_percussion : gset string :=
  list_to_set ["Bass Drum"; "Cymbals"; "Snare Drum"; "Triangle"; "Tambourine"].

(** [determine_clef_and_octave(instrument_name, part='right')] *)
Definition determine_clef_and_octave (instrument_name : string) (part : string) : ClefOctave :=
  if bool_decide (instrument_name = "Piano") then
    ClefDict (list_to_map [("right", ("TrebleClef", 4)); ("left", ("BassClef", 2))])
  else if bool_decide (elem_of instrument_name unpitched_percussion) then
    ClefPair ("PercussionClef", 4)
  else
    ClefPair (default ("TrebleClef", 4) (instrument_map !! instrument_name)).

(** ** Major scales *)

(** Model of the library's [scale.MajorScale] and of its [getPitches],
    as far as the program uses them.  Each degree is spelled on its
    own letter, with the accidental the major scale asks for; in the
    fifteen major keys, those of at most seven sharps or flats, that
    is never more than one sharp or flat.  Where a degree would need
    a double sharp or flat the library respells it; the statements
    about the spelling of a scale are made for the fifteen keys. *)
Module MajorScale.

Import Pitch.

(** The tonic: a letter and an alteration, no octave. *)
Record t := mk {
  tonic_step : Step;
  tonic_alter : Z
}.

#[global] Instance eq_dec : EqDecision t.
Proof. solve_decision. Defined.

Definition fresh_accidental (alt : Z) : option Accidental :=
  if alt =? 0 then None else Some (mkAccidental alt None "normal").

Definition tonic_at (sc : t) (oct : Z) : Pitch.t :=
  Pitch.mk (tonic_step sc) (fresh_accidental (tonic_alter sc)) oct.

(** The sharps of the major key on the tonic, flats counted below
    zero: its place on the circle of fifths. *)
Definition sharps (sc : t) : Z :=
  match tonic_step sc with
  | F => -1 | C => 0 | G => 1 | D => 2 | A => 3 | E => 4 | B => 5
  end + 7 * tonic_alter sc.

(** [scale.MajorScale(key_signature)]: the key string is read as a
    pitch name; [None] when the library cannot read it. *)
Definition of_key (key_signature : string) : option t :=
  do p <- set_name key_signature (Pitch.mk C None 4);
  Some (mk (step p) (from_option alter 0 (accidental p))).

Definition step_index (s : Step) : Z :=
  match s with
  | C => 0 | D => 1 | E => 2 | F => 3 | G => 4 | A => 5 | B => 6
  end.

Definition step_of_index (i : Z) : Step :=
  match i with
  | 0 => C | 1 => D | 2 => E | 3 => F | 4 => G | 5 => A | _ => B
  end.

Definition step_semitones (s : Step) : Z :=
  match s with
  | C => 0 | D => 2 | E => 4 | F => 5 | G => 7 | A => 9 | B => 11
  end.

(** Semitones of the degrees of a major scale above its tonic. *)
Definition major_offset (d : Z) : Z :=
  match d with
  | 0 => 0 | 1 => 2 | 2 => 4 | 3 => 5 | 4 => 7 | 5 => 9 | _ => 11
  end.

(** Height in semitones, 60 for C4. *)
Definition pitch_space (p : Pitch.t) : Z :=
  12 * (octave p + 1) + step_semitones (step p) + from_option alter 0 (accidental p).

(** Position on the staff: seven per octave. *)
Definition diatonic_number (p : Pitch.t) : Z :=
  7 * octave p + step_index (step p).

(** The pitch [k] scale steps above the tonic at octave [lo]: the
    letter moves [k] places, the octave number rises at each C, and
    the accidental is whatever puts the pitch a major-scale interval
    above the tonic. *)
Definition degree_pitch (sc : t) (lo : Z) (k : Z) : Pitch.t :=
  let d := step_index (tonic_step sc) + k in
  let st := step_of_index (d mod 7) in
  let oct := lo + d / 7 in
  let target := 12 * lo + step_semitones (tonic_step sc) + tonic_alter sc
                + 12 * (k / 7) + major_offset (k mod 7) in
  Pitch.mk st (fresh_accidental (target - (12 * oct + step_semitones st))) oct.

(** The scale from the tonic at octave [lo] to the tonic at octave
    [hi], both included: what [getPitches] answers when its two
    bounds are read as these two pitches, [lo] is not above [hi] and
    the ascent is within the library's reach
    ([getPitches_between_octaves] below).  The call itself, on the two
    strings the program formats, is [getPitches_between]. *)
Definition getPitches (sc : t) (lo hi : Z) : list Pitch.t :=
  if hi <? lo then []
  else map (fun k => degree_pitch sc lo (Z.of_nat k)) (seq 0 (Z.to_nat (7 * (hi - lo) + 1))).

(** [scale_object.tonic.name] *)
Definition tonic_name (sc : t) : string := Pitch.name (tonic_at sc 4).

(** The rounds the library allows one ascent. *)
Definition max_attempts : nat := 100.

(** The ascent of the library's realisation.  It starts on the pitch
    [k] steps above the tonic at octave [q0] and climbs one scale step
    in each round; a round keeps its pitch when the pitch lies within
    the two heights, and the ascent ends with the first pitch at or
    above the upper height.  The library counts the rounds and raises
    once it has counted [max_attempts] of them, also when the last of
    them arrives. *)
Fixpoint realize_ascending (attempts : nat) (sc : t) (q0 k min_ps max_ps : Z)
  : option (list Pitch.t) :=
  match attempts with
  | O => None
  | S attempts' =>
      let p := degree_pitch sc q0 k in
      let kept :=
        if (min_ps <=? pitch_space p) && (pitch_space p <=? max_ps) then [p] else [] in
      if max_ps <=? pitch_space p then
        match attempts' with
        | O => None
        | S _ => Some kept
        end
      else
        do rest <- realize_ascending attempts' sc q0 (k + 1) min_ps max_ps;
        Some (kept ++ rest)
  end.

(** The pitches of the scale between two pitches, by height.  When
    the first bound is the higher one the library swaps the two and
    returns the pitches from the top down.  It moves the tonic to the
    octave at or just below the lower bound and ascends from there. *)
Definition realize (sc : t) (minPitch maxPitch : Pitch.t) : option (list Pitch.t) :=
  let reverse := pitch_space maxPitch <? pitch_space minPitch in
  let min_ps := if reverse then pitch_space maxPitch else pitch_space minPitch in
  let max_ps := if reverse then pitch_space minPitch else pitch_space maxPitch in
  let q0 := (min_ps - pitch_space (tonic_at sc 0)) / 12 in
  do pitchList <- realize_ascending max_attempts sc q0 0 min_ps max_ps;
  Some (if reverse then rev pitchList else pitchList).

(** [scale_object.getPitches(minPitch, maxPitch)] on two strings: each
    is read as a pitch name with its octave, so that a minus sign
    before the digits is a flat and not the sign of the octave.
    [None] is the library's exception. *)
Definition getPitches_between (sc : t) (minPitch maxPitch : string) : option (list Pitch.t) :=
  do lo <- Pitch.of_string minPitch;
  do hi <- Pitch.of_string maxPitch;
  realize sc lo hi.

End MajorScale.

(** ** The two sequencers *)

(** Up the scale [pitches_up] and back down, the top pitch once
    ([app.py], lines 115 and 116), on the scale between the tonic at
    two octaves. *)
Definition scale_all_pitches (scale_object : MajorScale.t) (octave_start num_octaves : Z)
  : list Pitch.t :=
  let pitches_up := MajorScale.getPitches scale_object octave_start (octave_start + num_octaves) in
  let pitches_down := rev (removelast pitches_up) in
  pitches_up ++ pitches_down.

(** The scale pitches both sequencers ask the library for: the bounds
    are the tonic's name followed by the octave number, formatted into
    a string. *)
Definition scale_pitches_of (scale_object : MajorScale.t) (octave_start num_octaves : Z)
  : option (list Pitch.t) :=
  MajorScale.getPitches_between scale_object
    (MajorScale.tonic_name scale_object +:+ Pitch.str_of_int octave_start)
    (MajorScale.tonic_name scale_object +:+ Pitch.str_of_int (octave_start + num_octaves)).

(** The first lines of [create_scale_measures]: [all_pitches], up the
    scale the library returns and back down, the top pitch once. *)
Definition scale_sequencer (scale_object : MajorScale.t) (octave_start num_octaves : Z)
  : option (list Pitch.t) :=
  do pitches_up <- scale_pitches_of scale_object octave_start num_octaves;
  let pitches_down := rev (removelast pitches_up) in
  let all_pitches := pitches_up ++ pitches_down in
  Some all_pitches.

(** [l[i]] of a Python list; [None] is [IndexError]. *)
Definition py_index {X} (l : list X) (i : Z) : option X :=
  if 0 <=? i then l !! Z.to_nat i
  else if - Z.of_nat (length l) <=? i then l !! Z.to_nat (Z.of_nat (length l) + i)
  else None.

(** [range(n)] *)
Definition py_range (n : Z) : list Z := map Z.of_nat (seq 0 (Z.to_nat n)).

(** One round of the loop over the octaves in
    [create_arpeggio_measures]: the [try] block either extends
    [arpeggio_up] or raises [IndexError] before it has changed it. *)
Definition arpeggio_octave (scale_pitches : list Pitch.t) (num_octaves : Z)
    (arpeggio_up : list Pitch.t) (o : Z) : list Pitch.t :=
  let base_idx := 7 * o in
  let attempt :=
    do root <- py_index scale_pitches (base_idx + 0);
    do third <- py_index scale_pitches (base_idx + 2);
    do fifth <- py_index scale_pitches (base_idx + 4);
    if o <? num_octaves - 1 then
      Some (arpeggio_up ++ [root; third; fifth])
    else
      do octave_tone <- py_index scale_pitches (base_idx + 7);
      Some (arpeggio_up ++ [root; third; fifth; octave_tone]) in
  match attempt with
  | Some extended => extended
  | None => arpeggio_up
  end.

(** [arpeggio_up] after the loop over [range(num_octaves)]. *)
Definition arpeggio_up_of (scale_pitches : list Pitch.t) (num_octaves : Z) : list Pitch.t :=
  fold_left (arpeggio_octave scale_pitches num_octaves) (py_range num_octaves) [].

(** [all_arpeggio_pitches]: up, and back down when there is more than
    one pitch to come back from. *)
Definition arpeggio_all_pitches (scale_pitches : list Pitch.t) (num_octaves : Z) : list Pitch.t :=
  let arpeggio_up := arpeggio_up_of scale_pitches num_octaves in
  let arpeggio_down :=
    if 1 <? Z.of_nat (length arpeggio_up) then rev (removelast arpeggio_up) else [] in
  arpeggio_up ++ arpeggio_down.

(** ** Streams, measures and parts *)

(** Model of the library's [Stream]: the elements put at offset zero
    with [insert(0, x)], in the order of the calls, and the elements
    put at the end with [append(x)]. *)
Module Stream.

Record t (X : Type) := mk {
  at_start : list X;
  appended : list X
}.
Arguments mk {X} _ _.
Arguments at_start {X} _.
Arguments appended {X} _.

Definition empty {X} : t X := mk [] [].

Definition insert0 {X} (x : X) (s : t X) : t X :=
  mk (at_start s ++ [x]) (appended s).

Definition append {X} (x : X) (s : t X) : t X :=
  mk (at_start s) (appended s ++ [x]).

(** The elements of the stream, those at offset zero first, each
    group in the order of the calls.  The library iterates by offset
    and, at one offset, by the class of the element; the program
    iterates only over streams of measures it has filled with
    [append], where the two orders are the same. *)
Definition elements {X} (s : t X) : list X := at_start s ++ appended s.

(** [bool(s)]: a stream is true when it holds an element. *)
Definition truth {X} (s : t X) : bool :=
  match elements s with
  | [] => false
  | _ :: _ => true
  end.

(** [s[0]] changed in place by [f]; the stream sees the change. *)
Definition update_first {X} (f : X -> X) (s : t X) : t X :=
  match at_start s, appended s with
  | x :: l, _ => mk (f x :: l) (appended s)
  | [], x :: l => mk [] (f x :: l)
  | [], [] => s
  end.

End Stream.

(** [key.Key(key_signature, mode)] *)
Record Key := mkKey {
  key_tonic : MajorScale.t;
  key_mode : string
}.

Definition Key_of (key_signature mode : string) : option Key :=
  do sc <- MajorScale.of_key key_signature;
  Some (mkKey sc mode).

Inductive MeasureElement :=
| TextExpression (content : string) (placement : string)
| Clef (class_name : string)
| KeyElement (k : Key)
| NoteElement (n : Note).

Definition Measure := Stream.t MeasureElement.

Definition note_of (e : MeasureElement) : option Note :=
  match e with
  | NoteElement n => Some n
  | _ => None
  end.

(** [m.notes] *)
Definition notes (m : Measure) : list Note := omap note_of (Stream.elements m).

Definition has_notes (m : Measure) : bool :=
  match notes m with
  | [] => false
  | _ :: _ => true
  end.

(** The three lines that put the title above the start of a measure. *)
Definition with_title (title_text : string) (m : Measure) : Measure :=
  Stream.insert0 (TextExpression title_text "above") m.

(** The note the loops build for pitch [p]: made, given its duration,
    respelled.  The note holds the pitch object of the sequence, not
    a copy, and the descending half of a sequence holds the objects of
    its ascending half, so that a pitch the loop meets a second time
    has been respelled already; the note it gets then is the same
    ([new_note_again] below). *)
Definition new_note (p : Pitch.t) (type : string) : option Note :=
  fix_enharmonic_spelling (set_duration (DurationType type) (Note_of_pitch p)).

(** ** The measure loops *)

(** The variables the two measure loops carry from round to round. *)
Record Packing := mkPacking {
  measures_stream : Stream.t Measure;
  current_measure : Measure;
  note_counter : Z
}.

Definition Packing_start : Packing := mkPacking Stream.empty Stream.empty 0.

(** [for i, x in enumerate(l)] from index [i]; a round answers with the
    new variables and whether it ended in [break]. *)
Fixpoint for_enumerate {St X} (body : St -> Z -> X -> option (St * bool))
    (st : St) (i : Z) (l : list X) : option St :=
  match l with
  | [] => Some st
  | x :: l' =>
      match body st i x with
      | None => None
      | Some (st', true) => Some st'
      | Some (st', false) => for_enumerate body st' (i + 1) l'
      end
  end.

(** [if current_measure.notes: measures_stream.append(current_measure)] *)
Definition close_measure (st : Packing) : Stream.t Measure :=
  if has_notes (current_measure st)
  then Stream.append (current_measure st) (measures_stream st)
  else measures_stream st.

(** The branch of the last note, the same in both loops. *)
Definition last_note_round (title_text : string) (st : Packing) (i : Z) (p : Pitch.t)
  : option (Packing * bool) :=
  let measures := close_measure st in
  let m_whole := Stream.empty in
  let m_whole := if i =? 0 then with_title title_text m_whole else m_whole in
  do n <- new_note p "whole";
  let m_whole := Stream.append (NoteElement n) m_whole in
  Some (mkPacking (Stream.append m_whole measures) (current_measure st) (note_counter st), true).

(** One round of the loop of [create_scale_measures]. *)
Definition scale_round (title_text : string) (len : Z) (st : Packing) (i : Z) (p : Pitch.t)
  : option (Packing * bool) :=
  let notes_per_measure := 7 in
  if i =? len - 1 then last_note_round title_text st i p
  else
    let pos_in_measure := note_counter st mod notes_per_measure in
    if pos_in_measure =? 0 then
      let measures := close_measure st in
      let fresh := Stream.empty in
      let fresh := if i =? 0 then with_title title_text fresh else fresh in
      do n <- new_note p "quarter";
      Some (mkPacking measures (Stream.append (NoteElement n) fresh) (note_counter st + 1), false)
    else
      do n <- new_note p "eighth";
      Some (mkPacking (measures_stream st)
                      (Stream.append (NoteElement n) (current_measure st))
                      (note_counter st + 1), false).

(** The loop of [create_scale_measures] on a given pitch sequence. *)
Definition pack_scale (title_text : string) (all_pitches : list Pitch.t)
  : option (Stream.t Measure) :=
  do st <- for_enumerate (scale_round title_text (Z.of_nat (length all_pitches)))
                         Packing_start 0 all_pitches;
  Some (measures_stream st).

(** [create_scale_measures(title_text, scale_object, octave_start,
    num_octaves)] *)
Definition create_scale_measures (title_text : string) (scale_object : MajorScale.t)
    (octave_start num_octaves : Z) : option (Stream.t Measure) :=
  do all_pitches <- scale_sequencer scale_object octave_start num_octaves;
  pack_scale title_text all_pitches.

(** One round of the loop of [create_arpeggio_measures]: the new
    measure is opened first, the eighth note added in either case. *)
Definition arpeggio_round (title_text : string) (len : Z) (st : Packing) (i : Z) (p : Pitch.t)
  : option (Packing * bool) :=
  let notes_per_measure := 8 in
  if i =? len - 1 then last_note_round title_text st i p
  else
    let pos_in_measure := note_counter st mod notes_per_measure in
    let st :=
      if pos_in_measure =? 0 then
        let measures := close_measure st in
        let fresh := Stream.empty in
        let fresh := if i =? 0 then with_title title_text fresh else fresh in
        mkPacking measures fresh (note_counter st)
      else st in
    do n <- new_note p "eighth";
    Some (mkPacking (measures_stream st)
                    (Stream.append (NoteElement n) (current_measure st))
                    (note_counter st + 1), false).

(** The loop of [create_arpeggio_measures] on a given pitch sequence. *)
Definition pack_arpeggio (title_text : string) (all_arpeggio_pitches : list Pitch.t)
  : option (Stream.t Measure) :=
  do st <- for_enumerate (arpeggio_round title_text (Z.of_nat (length all_arpeggio_pitches)))
                         Packing_start 0 all_arpeggio_pitches;
  Some (measures_stream st).

(** [create_arpeggio_measures] once the scale pitches are there. *)
Definition arpeggio_measures_of (title_text : string) (scale_pitches : list Pitch.t)
    (num_octaves : Z) : option (Stream.t Measure) :=
  pack_arpeggio title_text (arpeggio_all_pitches scale_pitches num_octaves).

(** [create_arpeggio_measures(title_text, scale_object, octave_start,
    num_octaves)] *)
Definition create_arpeggio_measures (title_text : string) (scale_object : MajorScale.t)
    (octave_start num_octaves : Z) : option (Stream.t Measure) :=
  do scale_pitches <- scale_pitches_of scale_object octave_start num_octaves;
  arpeggio_measures_of title_text scale_pitches num_octaves.

(** ** Parts and scores *)

(** An instrument object of the library, known here by the class it
    belongs to. *)
Record Instrument := mkInstrument {
  instrument_class : string
}.

Inductive PartElement :=
| InstrumentElement (i : Instrument)
| SystemLayout (isNew : bool)
| PartMeasure (m : Measure).

Definition Part := Stream.t PartElement.
Definition Score := Stream.t Part.

(** [for m in measures: part.append(m)] *)
Definition append_measures (measures : Stream.t Measure) (part : Part) : Part :=
  fold_left (fun part m => Stream.append (PartMeasure m) part)
            (Stream.elements measures) part.

Section Assembly.

(** [instrument.fromString]: the library's search for an instrument
    by name; [None] when it raises because it knows no such name. *)
Variable instrument_fromString : string -> option Instrument.

(** [create_part_for_single_key_scales_arpeggios(key_signature,
    num_octaves, instrument_name)].  The first measure of each stream
    is changed in place before the measures go into the part. *)
Definition create_part_for_single_key_scales_arpeggios
    (key_signature : string) (num_octaves : Z) (instrument_name : string) : option Part :=
  let part : Part := Stream.empty in
  do instr_obj <- instrument_fromString instrument_name;
  let part := Stream.insert0 (InstrumentElement instr_obj) part in
  let part := Stream.insert0 (SystemLayout true) part in
  do major_key_obj <- Key_of key_signature "major";
  do major_scale_obj <- MajorScale.of_key key_signature;
  let clef_octave := determine_clef_and_octave instrument_name "right" in
  let selected :=
    match clef_octave with
    | ClefDict d => default ("TrebleClef", 4) (d !! "right")
    | ClefPair c => c
    end in
  let selected_clef := selected.1 in
  let octave_start := selected.2 in
  do scale_measures <-
    create_scale_measures (key_signature +:+ " Major Scale")
                          major_scale_obj octave_start num_octaves;
  let part :=
    if Stream.truth scale_measures then
      let scale_measures :=
        Stream.update_first
          (fun first_m => Stream.insert0 (KeyElement major_key_obj)
                            (Stream.insert0 (Clef selected_clef) first_m))
          scale_measures in
      append_measures scale_measures part
    else part in
  let part := Stream.append (SystemLayout true) part in
  do arpeggio_measures <-
    create_arpeggio_measures (key_signature +:+ " Major Arpeggio")
                             major_scale_obj octave_start num_octaves;
  let part :=
    if Stream.truth arpeggio_measures then
      let arpeggio_measures :=
        Stream.update_first
          (fun first_arp => Stream.insert0 (KeyElement major_key_obj) first_arp)
          arpeggio_measures in
      append_measures arpeggio_measures part
    else part in
  Some part.

(** One measure of the rhythm line: a note on the easy pitch for each
    duration value, its length [val * 4] quarter notes as the library
    keeps it.  The values are fractions of a whole note, each the
    exact value of the number in the request (numbers too large for
    a float to hold exactly are outside the model). *)
Definition rhythm_measure (easiest_note : string) (current_measure : Measure)
    (measure_durations : list Q) : option Measure :=
  foldl (fun acc val =>
           do current_measure <- acc;
           do p <- Pitch.of_string easiest_note;
           do n <- fix_enharmonic_spelling (Note_of_pitch p);
           let n := set_duration (DurationLength (opFrac (val * 4))) n in
           Some (Stream.append (NoteElement n) current_measure))
        (Some current_measure) measure_durations.

(** One round of the loop over the measures of [custom_rhythm]. *)
Definition rhythm_round (title_text easiest_note : string) (measures : Stream.t Measure)
    (measure_index : Z) (measure_durations : list Q) : option (Stream.t Measure * bool) :=
  let fresh := Stream.empty in
  let fresh := if measure_index =? 0 then with_title title_text fresh else fresh in
  do filled <- rhythm_measure easiest_note fresh measure_durations;
  Some (Stream.append filled measures, false).

(** [create_custom_rhythm_part(title_text, custom_rhythm,
    instrument_name)] *)
Definition create_custom_rhythm_part (title_text : string) (custom_rhythm : list (list Q))
    (instrument_name : string) : option Part :=
  let part : Part := Stream.empty in
  do instr_obj <- instrument_fromString instrument_name;
  let part := Stream.insert0 (InstrumentElement instr_obj) part in
  let part := Stream.insert0 (SystemLayout true) part in
  let easiest_note := default "C4" (EASIEST_NOTE_MAP !! instrument_name) in
  do measures <- for_enumerate (rhythm_round title_text easiest_note)
                               Stream.empty 0 custom_rhythm;
  Some (append_measures measures part).

(** [generate_scales_arpeggios_pdf] up to the point where the score
    is handed to the renderer: the score it has built. *)
Definition generate_scales_arpeggios_pdf (keys : list string) (num_octaves : Z)
    (instrument_name : string) : option Score :=
  foldl (fun acc key_sig =>
           do scales_arpeggios_score <- acc;
           do part_for_key <-
             create_part_for_single_key_scales_arpeggios key_sig num_octaves instrument_name;
           Some (Stream.append part_for_key scales_arpeggios_score))
        (Some Stream.empty) keys.

(** [generate_custom_rhythm_pdf], likewise. *)
Definition generate_custom_rhythm_pdf (custom_rhythm_example : list (list Q))
    (title instrument_name : string) : option Score :=
  let custom_rhythm_score : Score := Stream.empty in
  do custom_rhythm_part <-
    create_custom_rhythm_part title custom_rhythm_example instrument_name;
  Some (Stream.append custom_rhythm_part custom_rhythm_score).

End Assembly.

(** An instrument search that finds every name. *)
Definition fromString_any (s : string) : option Instrument := Some (mkInstrument s).

(** ** Closed forms used in the statements *)

(** A pitch with its accidental, if it has one, made visible. *)
Definition shown (p : Pitch.t) : Pitch.t :=
  match Pitch.accidental p with
  | Some a => Pitch.mk (Pitch.step p) (Some (show_accidental a)) (Pitch.octave p)
  | None => p
  end.

(** What the speller makes of a pitch: E sharp becomes F, B sharp
    becomes the C above, anything else keeps letter and octave. *)
Definition respell (p : Pitch.t) : Pitch.t :=
  match Pitch.step p, Pitch.accidental p with
  | Pitch.E, Some a =>
      if Pitch.alter a =? 1 then Pitch.mk Pitch.F None (Pitch.octave p) else shown p
  | Pitch.B, Some a =>
      if Pitch.alter a =? 1 then Pitch.mk Pitch.C None (Pitch.octave p + 1) else shown p
  | _, _ => shown p
  end.

(** The name, with octave, that the speller leaves on a note made from
    the pitch string [s]. *)
Definition spelled (s : string) : option string :=
  do p <- Pitch.of_string s;
  do n <- fix_enharmonic_spelling (Note_of_pitch p);
  do q <- pitch n;
  Some (Pitch.nameWithOctave q).

(** The measures of a part, in order. *)
Definition part_measures (part : Part) : list Measure :=
  omap (fun e => match e with PartMeasure m => Some m | _ => None end)
       (Stream.elements part).

(** The pattern [[1], [0.5, 0.5]]. *)
Definition rhythm_example : list (list Q) := [[1%Q]; [(1 # 2)%Q; (1 # 2)%Q]].

(** The note the loops make of pitch [p], by [fix_enharmonic_spelling_respell]. *)
Definition spelled_note (p : Pitch.t) (type : string) : Note :=
  mkNote (Some (respell p)) (DurationType type).

Definition is_nil {X} (l : list X) : bool :=
  match l with
  | [] => true
  | _ :: _ => false
  end.

(** The measure that holds the notes [g], under the title or not. *)
Definition group_measure (title_text : string) (titled : bool) (g : list Note) : Measure :=
  Stream.mk (if titled then [TextExpression title_text "above"] else [])
            (map NoteElement g).

(** The measures that hold the groups of notes [groups], one measure
    for each group, the title on the first. *)
Definition measures_of (title_text : string) (groups : list (list Note)) : list Measure :=
  match groups with
  | [] => []
  | g :: rest =>
      group_measure title_text true g :: map (group_measure title_text false) rest
  end.

(** The two measure loops as one, by capacity and by the duration of
    the first note of a measure. *)
Definition pack_round (notes_per_measure : Z) (first_type title_text : string) (len : Z)
    (st : Packing) (i : Z) (p : Pitch.t) : option (Packing * bool) :=
  if i =? len - 1 then last_note_round title_text st i p
  else if note_counter st mod notes_per_measure =? 0 then
    do n <- new_note p first_type;
    Some (mkPacking (close_measure st)
                    (Stream.append (NoteElement n)
                       (if i =? 0 then with_title title_text Stream.empty else Stream.empty))
                    (note_counter st + 1), false)
  else
    do n <- new_note p "eighth";
    Some (mkPacking (measures_stream st)
                    (Stream.append (NoteElement n) (current_measure st))
                    (note_counter st + 1), false).

(** A group of notes as a measure of the running figure holds it:
    not empty, within the capacity, the first note of the duration
    [first_type] and the others eighths. *)
Definition group_ok (notes_per_measure : Z) (first_type : string) (g : list Note) : Prop :=
  exists n ns,
    g = n :: ns /\
    Z.of_nat (length g) <= notes_per_measure /\
    duration n = DurationType first_type /\
    Forall (fun n' => duration n' = DurationType "eighth") ns.

(** The pitches [pre] laid out in the full groups [gs] and the open
    group [g]. *)
Record Filled (notes_per_measure : Z) (first_type : string)
    (pre : list Pitch.t) (gs : list (list Note)) (g : list Note) : Prop := {
  filled_full : Forall (fun g' => Z.of_nat (length g') = notes_per_measure) gs;
  filled_count :
    Z.of_nat (length pre) = notes_per_measure * Z.of_nat (length gs) + Z.of_nat (length g);
  filled_ok : Forall (group_ok notes_per_measure first_type) (gs ++ [g]);
  filled_pitches : map pitch (concat (gs ++ [g])) = map (fun p => Some (respell p)) pre
}.

(** The loop variables once the groups [gs] are closed and [g] is open. *)
Definition state_of (notes_per_measure : Z) (title_text : string)
    (gs : list (list Note)) (g : list Note) : Packing :=
  mkPacking (Stream.mk [] (measures_of title_text gs))
            (group_measure title_text (is_nil gs) g)
            (notes_per_measure * Z.of_nat (length gs) + Z.of_nat (length g)).

(** The scale indices octave [o] of the arpeggio needs: root, third
    and fifth, and for the last octave the tone an octave above the
    root as well. *)
Definition required_indices (num_octaves o : Z) : list Z :=
  if o <? num_octaves - 1
  then [7 * o; 7 * o + 2; 7 * o + 4]
  else [7 * o; 7 * o + 2; 7 * o + 4; 7 * o + 7].

(** What octave [o] adds to the arpeggio: the pitches at its indices
    when the scale has them all, nothing otherwise. *)
Definition octave_tones (scale_pitches : list Pitch.t) (num_octaves o : Z) : list Pitch.t :=
  default [] (mapM (py_index scale_pitches) (required_indices num_octaves o)).

(** Root, third and fifth of octave [o] in a scale long enough; [d]
    stands in for what a shorter scale lacks. *)
Definition octave_triad (scale_pitches : list Pitch.t) (d : Pitch.t) (o : nat) : list Pitch.t :=
  [nth (7 * o) scale_pitches d; nth (7 * o + 2) scale_pitches d; nth (7 * o + 4) scale_pitches d].

Definition is_system_break (e : PartElement) : bool :=
  match e with
  | SystemLayout _ => true
  | _ => false
  end.

(** What follows the first system break among the elements [l]. *)
Fixpoint after_break (l : list PartElement) : list PartElement :=
  match l with
  | [] => []
  | e :: l' => if is_system_break e then l' else after_break l'
  end.

Definition has_clef (m : Measure) : bool :=
  existsb (fun e => match e with Clef _ => true | _ => false end) (Stream.elements m).

Definition has_key (m : Measure) : bool :=
  existsb (fun e => match e with KeyElement _ => true | _ => false end) (Stream.elements m).

(** ** Measures of time and of the rhythm line *)

(** [d.quarterLength]: the length of a duration in quarter notes, for
    the type names the program writes and their neighbours; other
    type names do not occur. *)
Definition quarterLength (d : Duration) : Q :=
  match d with
  | DurationType type =>
      if bool_decide (type = "whole") then 4%Q
      else if bool_decide (type = "half") then 2%Q
      else if bool_decide (type = "quarter") then 1%Q
      else if bool_decide (type = "eighth") then (1 # 2)%Q
      else 0%Q
  | DurationLength q => q
  end.

(** The quarter lengths of the notes of a measure, added up. *)
Definition measure_length (m : Measure) : Q :=
  fold_right Qplus 0%Q (map (fun n => quarterLength (duration n)) (notes m)).

(** The notes of one measure of the rhythm line on pitch [p]. *)
Definition rhythm_notes (p : Pitch.t) (measure_durations : list Q) : list Note :=
  map (fun val => mkNote (Some p) (DurationLength (opFrac (val * 4)))) measure_durations.

(** A duration value whose length the library keeps as it is:
    positive, with [val * 4] no larger than 2^53, up to where a
    Python number of either kind is exact, and of a denominator
    within the limit. *)
Definition kept_exactly (val : Q) : Prop :=
  (0 < val)%Q /\
  (val * 4 <= 9007199254740992)%Q /\
  Z.pos (Qden (Qred (val * 4))) <= DENOM_LIMIT.

(** The clef classes [determine_clef_and_octave] can name. *)
Definition clef_classes : list string :=
  ["TrebleClef"; "BassClef"; "AltoClef"; "PercussionClef"].

(** Equal loop variables: the streams read alike, the counters agree. *)
Ltac same_packing := do 3 f_equal; first [reflexivity | lia].

(** ** The speller *)

Section Speller.

Import Pitch.

Lemma ENHARM_MAP_lookup (k : string) :
  ENHARM_MAP !! k =
    if decide (k = "E#") then Some ("F", 0)
    else if decide (k = "B#") then Some ("C", 1)
    else if decide (k = "Cb") then Some ("B", -1)
    else if decide (k = "Fb") then Some ("E", 0)
    else None.
Proof.
  unfold ENHARM_MAP. cbn [list_to_map foldr curry fst snd].
  rewrite !lookup_insert, lookup_empty.
  repeat case_decide; congruence.
Qed.

Lemma repeat_char_inv (c : ascii) (n : nat) :
  (repeat_char c n = "" /\ n = 0%nat) \/
  (repeat_char c n = String c "" /\ n = 1%nat) \/
  (exists s, repeat_char c n = String c (String c s) /\ (2 <= n)%nat).
Proof.
  destruct n as [|[|n]]; cbn; [left | right; left | right; right]; eauto with lia.
Qed.

(** The name of a pitch is a key of the table only for E sharp and
    B sharp: a flat is written with [-], never with [b]. *)
Lemma ENHARM_MAP_name (p : Pitch.t) :
  ENHARM_MAP !! name p =
    match step p, accidental p with
    | E, Some a => if alter a =? 1 then Some ("F", 0) else None
    | B, Some a => if alter a =? 1 then Some ("C", 1) else None
    | _, _ => None
    end.
Proof.
  rewrite ENHARM_MAP_lookup.
  destruct p as [st [a|] oct]; unfold name; cbn [step accidental].
  - unfold modifier.
    destruct (Z.leb_spec 0 (alter a)) as [Hs|Hs];
      [ destruct (repeat_char_inv "#" (Z.to_nat (alter a))) as [[-> Hn]|[[-> Hn]|[s [-> Hn]]]]
      | destruct (repeat_char_inv "-" (Z.to_nat (- alter a))) as [[-> Hn]|[[-> Hn]|[s [-> Hn]]]] ];
      destruct (Z.eqb_spec (alter a) 1); try lia;
      destruct st; cbv [step_letter String.append]; repeat case_decide; congruence.
  - destruct st; cbv [step_letter]; repeat case_decide; congruence.
Qed.

(** The speller never raises, and its result is [respell]. *)
Lemma fix_enharmonic_spelling_respell (n : Note) :
  fix_enharmonic_spelling n = Some (mkNote (respell <$> pitch n) (duration n)).
Proof.
  destruct n as [[p|] d]; unfold fix_enharmonic_spelling;
    cbn [pitch duration fmap option_fmap option_map]; [|done].
  rewrite ENHARM_MAP_name. unfold respell, shown.
  destruct p as [st [a|] oct]; cbn [step accidental octave];
    destruct st; try reflexivity;
    destruct (alter a =? 1); try reflexivity;
    cbv -[Z.add]; rewrite ?Z.add_0_r; reflexivity.
Qed.

Lemma respell_idempotent (p : Pitch.t) : respell (respell p) = respell p.
Proof.
  destruct p as [st [a|] oct]; unfold respell, shown; cbn [step accidental octave];
    destruct st; try reflexivity;
    destruct (alter a =? 1) eqn:Ha; cbn [step accidental octave show_accidental alter];
    rewrite ?Ha; reflexivity.
Qed.

(** C5, at an input where the code departs from it: the fourth
    degree of G flat major is C flat, whose name is [C-]; the name
    is no key of the table, whose entry for C flat is under [Cb],
    and the speller leaves the pitch C flat in its octave instead of
    rewriting it to B in the octave below.  F flat, the fourth
    degree of C flat major, is left as it is in the same way. *)
Theorem fix_enharmonic_spelling_keeps_flats :
  let c_flat := MajorScale.degree_pitch (MajorScale.mk G (-1)) 4 3 in
  let f_flat := MajorScale.degree_pitch (MajorScale.mk C (-1)) 4 3 in
  nameWithOctave c_flat = "C-5" /\ nameWithOctave f_flat = "F-4" /\
  ENHARM_MAP !! name c_flat = None /\ ENHARM_MAP !! name f_flat = None /\
  fix_enharmonic_spelling (Note_of_pitch c_flat) = Some (Note_of_pitch (shown c_flat)) /\
  fix_enharmonic_spelling (Note_of_pitch f_flat) = Some (Note_of_pitch (shown f_flat)) /\
  spelled "C-5" = Some "C-5" /\ spelled "F-4" = Some "F-4".
Proof. vm_compute. repeat split; reflexivity. Qed.

(** C6: the speller is idempotent.  Running it on its own result
    gives that result again, in name, octave and accidental display;
    E sharp 4 is spelled F4 and B sharp 3 is spelled C4. *)
Theorem fix_enharmonic_spelling_idempotent :
  (forall n : Note,
     mbind fix_enharmonic_spelling (fix_enharmonic_spelling n) = fix_enharmonic_spelling n) /\
  (forall n : Note, is_Some (fix_enharmonic_spelling n)) /\
  spelled "E#4" = Some "F4" /\
  spelled "B#3" = Some "C4".
Proof.
  split; [|split; [|split; vm_compute; reflexivity]].
  - intros n. rewrite (fix_enharmonic_spelling_respell n). cbn [mbind option_bind].
    rewrite fix_enharmonic_spelling_respell. cbn [pitch duration].
    destruct (pitch n) as [p|]; cbn [fmap option_fmap option_map]; [|reflexivity].
    rewrite respell_idempotent. reflexivity.
  - intros n. rewrite fix_enharmonic_spelling_respell. eauto.
Qed.

End Speller.

(** ** Clef and octave *)

(** C10: the result of [determine_clef_and_octave] does not depend on
    the part designator; for the piano it is the dictionary of both
    hands, from which the caller takes its hand. *)
Theorem determine_clef_and_octave_ignores_part :
  (forall (instrument_name p1 p2 : string),
     determine_clef_and_octave instrument_name p1 = determine_clef_and_octave instrument_name p2) /\
  (forall part : string,
     exists d : gmap string (string * Z),
       determine_clef_and_octave "Piano" part = ClefDict d /\
       d !! "right" = Some ("TrebleClef", 4) /\
       d !! "left" = Some ("BassClef", 2)).
Proof.
  split.
  - intros instrument_name p1 p2. reflexivity.
  - intros part. eexists. split; [reflexivity|]. split; vm_compute; reflexivity.
Qed.

(** ** The rhythm line *)

(** C7 as stated fails on the violin: the rhythm line is built, and
    its first note is on G3, not on C4. *)
Lemma rhythm_violin_notes_not_C4 :
  exists (part : Part) (n : Note),
    create_custom_rhythm_part fromString_any "Rhythm" rhythm_example "Violin" = Some part /\
    In n (concat (map notes (part_measures part))) /\
    Pitch.nameWithOctave <$> pitch n = Some "G3" /\
    Pitch.nameWithOctave <$> pitch n <> Some "C4".
Proof.
  eexists. exists (mkNote (Some (Pitch.mk Pitch.G None 3)) (DurationLength 4)).
  split; [vm_compute; reflexivity|].
  split; [left; reflexivity|].
  split; [vm_compute; reflexivity|].
  vm_compute. discriminate.
Qed.

(** C7, amended: for the pattern [[1], [0.5, 0.5]] on the violin the
    rhythm line has two measures; the first holds the title and one
    note of four quarter lengths, the second two notes of two quarter
    lengths each; every note is on G3, the easy pitch the table gives
    for the violin. *)
Theorem create_custom_rhythm_part_violin
    (fromString : string -> option Instrument) (title_text : string) (i : Instrument) :
  fromString "Violin" = Some i ->
  let g3 := Pitch.mk Pitch.G None 3 in
  EASIEST_NOTE_MAP !! "Violin" = Some "G3" /\
  Pitch.of_string "G3" = Some g3 /\
  create_custom_rhythm_part fromString title_text rhythm_example "Violin" =
    Some (Stream.mk
            [InstrumentElement i; SystemLayout true]
            [PartMeasure
               (Stream.mk [TextExpression title_text "above"]
                          [NoteElement (mkNote (Some g3) (DurationLength 4))]);
             PartMeasure
               (Stream.mk []
                          [NoteElement (mkNote (Some g3) (DurationLength 2));
                           NoteElement (mkNote (Some g3) (DurationLength 2))])]).
Proof.
  intros Hi g3. split; [vm_compute; reflexivity|]. split; [vm_compute; reflexivity|].
  unfold create_custom_rhythm_part. rewrite Hi. vm_compute. reflexivity.
Qed.

Lemma create_custom_rhythm_part_violin_witness :
  create_custom_rhythm_part fromString_any "Rhythm" rhythm_example "Violin" =
    Some (Stream.mk
            [InstrumentElement (mkInstrument "Violin"); SystemLayout true]
            [PartMeasure
               (Stream.mk [TextExpression "Rhythm" "above"]
                          [NoteElement (mkNote (Some (Pitch.mk Pitch.G None 3)) (DurationLength 4))]);
             PartMeasure
               (Stream.mk []
                          [NoteElement (mkNote (Some (Pitch.mk Pitch.G None 3)) (DurationLength 2));
                           NoteElement (mkNote (Some (Pitch.mk Pitch.G None 3)) (DurationLength 2))])]).
Proof.
  apply (create_custom_rhythm_part_violin fromString_any "Rhythm" (mkInstrument "Violin")).
  reflexivity.
Defined.

(** ** Empty requests *)

(** C8 as stated fails for the rhythm line: the score built for an
    empty pattern holds one part, not none. *)
Lemma empty_rhythm_score_has_a_part :
  exists score : Score,
    generate_custom_rhythm_pdf fromString_any [] "Rhythm" "Violin" = Some score /\
    length (Stream.elements score) = 1%nat /\
    Stream.elements score <> [].
Proof.
  eexists. split; [vm_compute; reflexivity|]. split; [reflexivity|discriminate].
Qed.

(** C8, amended: an empty key list gives a score without parts, and
    no error whatever the instrument; an empty rhythm pattern gives,
    for an instrument the library finds, a score with exactly one
    part, which holds the instrument and the opening system break and
    no measure. *)
Theorem empty_requests (fromString : string -> option Instrument) :
  (forall (num_octaves : Z) (instrument_name : string),
     generate_scales_arpeggios_pdf fromString [] num_octaves instrument_name
     = Some Stream.empty) /\
  (forall (title instrument_name : string) (i : Instrument),
     fromString instrument_name = Some i ->
     generate_custom_rhythm_pdf fromString [] title instrument_name
     = Some (Stream.mk [] [Stream.mk [InstrumentElement i; SystemLayout true] []])).
Proof.
  split.
  - intros num_octaves instrument_name. reflexivity.
  - intros title instrument_name i Hi.
    unfold generate_custom_rhythm_pdf, create_custom_rhythm_part. rewrite Hi. reflexivity.
Qed.

Lemma empty_requests_witness :
  generate_scales_arpeggios_pdf fromString_any [] 1 "Violin" = Some Stream.empty /\
  generate_custom_rhythm_pdf fromString_any [] "Rhythm" "Violin"
  = Some (Stream.mk [] [Stream.mk [InstrumentElement (mkInstrument "Violin"); SystemLayout true] []]).
Proof.
  destruct (empty_requests fromString_any) as [Hkeys Hrhythm].
  split; [apply Hkeys | apply Hrhythm; reflexivity].
Defined.

(** ** The scale sequencer *)

Section ScaleSequencer.

Import Pitch MajorScale.

Lemma step_of_index_index (s : Step) : step_of_index (step_index s) = s.
Proof. destruct s; reflexivity. Qed.

Lemma step_index_of_index (i : Z) : 0 <= i < 7 -> step_index (step_of_index i) = i.
Proof.
  intros Hi.
  assert (i = 0 \/ i = 1 \/ i = 2 \/ i = 3 \/ i = 4 \/ i = 5 \/ i = 6) as Hc by lia.
  intuition subst; reflexivity.
Qed.

Lemma step_index_range (s : Step) : 0 <= step_index s < 7.
Proof. destruct s; cbn; lia. Qed.

Lemma fresh_accidental_alter (alt : Z) : from_option alter 0 (fresh_accidental alt) = alt.
Proof. unfold fresh_accidental. destruct (Z.eqb_spec alt 0); cbn; lia. Qed.

Variable sc : MajorScale.t.
Variable lo : Z.

Lemma degree_pitch_octaves (n : Z) :
  0 <= n -> degree_pitch sc lo (7 * n) = tonic_at sc (lo + n).
Proof.
  intros Hn. unfold degree_pitch, tonic_at.
  pose proof (step_index_range (tonic_step sc)) as Hs.
  replace ((step_index (tonic_step sc) + 7 * n) mod 7) with (step_index (tonic_step sc))
    by (Z.div_mod_to_equations; lia).
  replace ((step_index (tonic_step sc) + 7 * n) / 7) with n
    by (Z.div_mod_to_equations; lia).
  replace (7 * n / 7) with n by (Z.div_mod_to_equations; lia).
  replace (7 * n mod 7) with 0 by (Z.div_mod_to_equations; lia).
  rewrite step_of_index_index. cbn [major_offset]. f_equal. f_equal. lia.
Qed.

Lemma degree_pitch_0 : degree_pitch sc lo 0 = tonic_at sc lo.
Proof.
  replace 0 with (7 * 0) by lia. rewrite degree_pitch_octaves by lia.
  f_equal. lia.
Qed.

(** Each degree sits one staff position above the one before. *)
Lemma diatonic_number_degree (k : Z) :
  0 <= k ->
  diatonic_number (degree_pitch sc lo k) = diatonic_number (tonic_at sc lo) + k.
Proof.
  intros Hk. unfold diatonic_number, degree_pitch, tonic_at. cbn [step octave].
  set (d := step_index (tonic_step sc) + k).
  rewrite step_index_of_index by (apply Z.mod_pos_bound; lia).
  pose proof (Z.div_mod d 7 ltac:(lia)). lia.
Qed.

(** Each degree sounds a major-scale interval above the tonic. *)
Lemma pitch_space_degree (k : Z) :
  pitch_space (degree_pitch sc lo k)
  = pitch_space (tonic_at sc lo) + 12 * (k / 7) + major_offset (k mod 7).
Proof.
  unfold pitch_space, degree_pitch, tonic_at. cbn [step octave accidental].
  rewrite !fresh_accidental_alter. lia.
Qed.

Lemma getPitches_length (n : Z) :
  0 <= n -> length (getPitches sc lo (lo + n)) = Z.to_nat (7 * n + 1).
Proof.
  intros Hn. unfold getPitches.
  destruct (Z.ltb_spec (lo + n) lo); [lia|].
  rewrite length_map, length_seq. f_equal. lia.
Qed.

Lemma getPitches_lookup (n : Z) (k : nat) :
  0 <= n -> (k < Z.to_nat (7 * n + 1))%nat ->
  getPitches sc lo (lo + n) !! k = Some (degree_pitch sc lo (Z.of_nat k)).
Proof.
  intros Hn Hk. unfold getPitches.
  destruct (Z.ltb_spec (lo + n) lo); [lia|].
  rewrite list_lookup_fmap.
  replace (lo + n - lo) with n by lia.
  rewrite lookup_seq_lt by lia. reflexivity.
Qed.

(** The ascent: the degrees below the top, then the tonic at the
    upper octave. *)
Lemma getPitches_snoc (n : Z) :
  0 <= n ->
  getPitches sc lo (lo + n)
  = map (fun k => degree_pitch sc lo (Z.of_nat k)) (seq 0 (Z.to_nat (7 * n)))
    ++ [tonic_at sc (lo + n)].
Proof.
  intros Hn. unfold getPitches.
  destruct (Z.ltb_spec (lo + n) lo); [lia|].
  replace (lo + n - lo) with n by lia.
  replace (Z.to_nat (7 * n + 1)) with (S (Z.to_nat (7 * n))) by lia.
  rewrite seq_S, map_app. cbn [map plus].
  rewrite Z2Nat.id by lia. rewrite degree_pitch_octaves by lia. reflexivity.
Qed.

Lemma below_top_not_apex (n : Z) (m : nat) :
  0 <= n -> (m <= Z.to_nat (7 * n))%nat ->
  count_occ Pitch.eq_dec
    (map (fun k => degree_pitch sc lo (Z.of_nat k)) (seq 0 m))
    (tonic_at sc (lo + n)) = 0%nat.
Proof.
  intros Hn Hm. apply count_occ_not_In. intros Hin.
  apply in_map_iff in Hin as [k [Hk Hseq]]. apply in_seq in Hseq.
  apply (f_equal diatonic_number) in Hk.
  rewrite <- (degree_pitch_octaves n), !diatonic_number_degree in Hk by lia.
  lia.
Qed.

End ScaleSequencer.

(** ** The bounds the sequencers format *)

Section Bounds.

Import Pitch MajorScale.

Lemma append_cons (c : ascii) (s1 s2 : string) :
  String c s1 +:+ s2 = String c (s1 +:+ s2).
Proof. reflexivity. Qed.

Lemma append_empty_r (s : string) : s +:+ "" = s.
Proof. induction s as [|c s IH]; [reflexivity|]. rewrite append_cons, IH. reflexivity. Qed.

Lemma filter_chars_app (f : ascii -> bool) (s1 s2 : string) :
  filter_chars f (s1 +:+ s2) = filter_chars f s1 +:+ filter_chars f s2.
Proof.
  induction s1 as [|c s1 IH]; [reflexivity|].
  rewrite append_cons. cbn [filter_chars]. destruct (f c); [|exact IH].
  rewrite append_cons, IH. reflexivity.
Qed.

Lemma pretty_N_char_digit (x : N) :
  (x < 10)%N ->
  is_digit (pretty_N_char x) = true /\
  Z.of_nat (nat_of_ascii (pretty_N_char x)) - 48 = Z.of_N x.
Proof.
  intros Hx.
  assert (x = 0 \/ x = 1 \/ x = 2 \/ x = 3 \/ x = 4 \/ x = 5 \/ x = 6 \/ x = 7
          \/ x = 8 \/ x = 9)%N as Hc by lia.
  intuition subst; vm_compute; auto.
Qed.

(** The digits [pretty] writes are digits, and read back as the
    number. *)
Lemma pretty_N_go_digits (x : N) (s : string) :
  filter_chars is_digit (pretty_N_go x s) = pretty_N_go x (filter_chars is_digit s) /\
  filter_chars (fun c => negb (is_digit c)) (pretty_N_go x s)
  = filter_chars (fun c => negb (is_digit c)) s /\
  exists e, forall acc,
    int_of_digits acc (pretty_N_go x s) = int_of_digits (acc * e + Z.of_N x) s.
Proof.
  revert s. induction (N.lt_wf_0 x) as [x _ IH]. intros s.
  assert (x = 0 \/ 0 < x)%N as [->|Hx] by lia.
  { rewrite !pretty_N_go_0. split; [reflexivity|]. split; [reflexivity|].
    exists 1. intros acc. f_equal. lia. }
  rewrite (pretty_N_go_step x s), (pretty_N_go_step x (filter_chars is_digit s)) by done.
  destruct (pretty_N_char_digit (x `mod` 10)%N) as [Hd Hv].
  { apply N.mod_lt. lia. }
  destruct (IH (x `div` 10)%N ltac:(apply N.div_lt; lia)
               (String (pretty_N_char (x `mod` 10)) s)) as [H1 [H2 [e H3]]].
  split; [rewrite H1; cbn [filter_chars]; rewrite Hd; reflexivity|].
  split; [rewrite H2; cbn [filter_chars]; rewrite Hd; reflexivity|].
  exists (10 * e). intros acc. rewrite H3. cbn [int_of_digits]. rewrite Hv. f_equal.
  pose proof (N.div_mod x 10 ltac:(lia)) as Hdm.
  assert (Z.of_N x = 10 * Z.of_N (x `div` 10) + Z.of_N (x `mod` 10)) by lia.
  lia.
Qed.

Lemma str_of_int_digits (z : Z) :
  0 <= z ->
  filter_chars is_digit (str_of_int z) = str_of_int z /\
  filter_chars (fun c => negb (is_digit c)) (str_of_int z) = "" /\
  int_of_digits 0 (str_of_int z) = z /\
  str_of_int z <> "".
Proof.
  intros Hz.
  assert (filter_chars is_digit (str_of_int z) = str_of_int z /\
          filter_chars (fun c => negb (is_digit c)) (str_of_int z) = "" /\
          int_of_digits 0 (str_of_int z) = z) as H.
  { destruct z as [|p|p]; [repeat split; reflexivity| |lia].
    unfold str_of_int, pretty, pretty_Z, pretty, pretty_positive, pretty, pretty_N.
    destruct (decide (N.pos p = 0%N)) as [|_]; [discriminate|].
    destruct (pretty_N_go_digits (N.pos p) "") as [H1 [H2 [e H3]]].
    split; [exact H1|]. split; [exact H2|]. rewrite H3. reflexivity. }
  destruct H as [H1 [H2 H3]]. repeat split; try assumption.
  intros Hempty. rewrite Hempty in H3. cbn in H3. subst z. discriminate Hempty.
Qed.

(** A name without digits, followed by an octave number, is read as
    the name at that octave. *)
Lemma set_name_with_octave (nm : string) (o : Z) (p0 : Pitch.t) :
  0 <= o ->
  filter_chars is_digit nm = "" ->
  set_name (nm +:+ str_of_int o) p0
  = do q <- set_name nm p0; Some (Pitch.mk (step q) (accidental q) o).
Proof.
  intros Ho Hnm.
  destruct (str_of_int_digits o Ho) as [H1 [H2 [H3 H4]]].
  unfold set_name. rewrite !filter_chars_app, Hnm, H1, H2, append_empty_r.
  change ("" +:+ str_of_int o) with (str_of_int o).
  rewrite bool_decide_false by exact H4. rewrite H3.
  destruct (filter_chars (fun c => negb (is_digit c)) nm) as [|c [|c' rest]];
    [reflexivity| |].
  - destruct (step_of_ascii c); reflexivity.
  - destruct (step_of_ascii c); [|reflexivity]. cbn.
    destruct (accidental_of_modifier (String c' rest)); reflexivity.
Qed.

Lemma tonic_name_reads (sc : MajorScale.t) (p0 : Pitch.t) :
  -4 <= tonic_alter sc <= 4 ->
  filter_chars is_digit (tonic_name sc) = "" /\
  set_name (tonic_name sc) p0 = Some (tonic_at sc (octave p0)).
Proof.
  intros Ha. destruct sc as [st a]. cbn [tonic_alter] in Ha.
  assert (a = -4 \/ a = -3 \/ a = -2 \/ a = -1 \/ a = 0 \/ a = 1 \/ a = 2 \/ a = 3 \/ a = 4)
    as Hc by lia.
  destruct st; intuition subst; split; reflexivity.
Qed.

(** The bound the program formats for octave [o] is read as the tonic
    at octave [o], when [o] is not negative. *)
Lemma of_string_tonic (sc : MajorScale.t) (o : Z) :
  -4 <= tonic_alter sc <= 4 -> 0 <= o ->
  Pitch.of_string (tonic_name sc +:+ str_of_int o) = Some (tonic_at sc o).
Proof.
  intros Ha Ho. unfold of_string.
  destruct (tonic_name_reads sc (Pitch.mk C None 4) Ha) as [Hd Hn].
  destruct (str_of_int_digits o Ho) as [H1 [_ [_ H4]]].
  rewrite filter_chars_app, Hd, H1.
  change ("" +:+ str_of_int o) with (str_of_int o).
  rewrite bool_decide_false by exact H4.
  rewrite set_name_with_octave by assumption. rewrite Hn. reflexivity.
Qed.

Lemma major_offset_range (d : Z) : 0 <= major_offset d <= 11.
Proof.
  unfold major_offset.
  destruct d as [|p|p]; [lia| |lia].
  do 3 (destruct p as [p|p|]; try lia).
Qed.

Lemma pitch_space_tonic_at (sc : MajorScale.t) (o n : Z) :
  pitch_space (tonic_at sc (o + n)) = pitch_space (tonic_at sc o) + 12 * n.
Proof. unfold pitch_space, tonic_at. cbn [step octave accidental]. lia. Qed.

Lemma pitch_space_below_top (sc : MajorScale.t) (o n k : Z) :
  0 <= k < 7 * n ->
  pitch_space (tonic_at sc o) <= pitch_space (degree_pitch sc o k)
  < pitch_space (tonic_at sc (o + n)).
Proof.
  intros Hk. rewrite pitch_space_degree, pitch_space_tonic_at.
  pose proof (major_offset_range (k mod 7)).
  assert (0 <= k / 7 <= n - 1) by (Z.div_mod_to_equations; lia).
  lia.
Qed.

(** Within reach, the ascent from the tonic returns the scale. *)
Lemma realize_ascending_run (sc : MajorScale.t) (o n : Z) (m : nat) :
  forall (attempts : nat) (k : Z),
    0 <= k -> k + Z.of_nat m = 7 * n -> (m + 2 <= attempts)%nat ->
    realize_ascending attempts sc o k
      (pitch_space (tonic_at sc o)) (pitch_space (tonic_at sc (o + n)))
    = Some (map (fun j => degree_pitch sc o (Z.of_nat j)) (seq (Z.to_nat k) (S m))).
Proof.
  induction m as [|m IH]; intros attempts k Hk Hm Ha.
  - destruct attempts as [|[|attempts]]; [lia|lia|].
    cbn [realize_ascending seq map]. rewrite Z2Nat.id by lia.
    replace k with (7 * n) by lia. rewrite degree_pitch_octaves by lia.
    rewrite Z.leb_refl.
    assert ((pitch_space (tonic_at sc o) <=? pitch_space (tonic_at sc (o + n))) = true) as ->.
    { apply Z.leb_le. rewrite pitch_space_tonic_at. lia. }
    reflexivity.
  - destruct attempts as [|attempts]; [lia|].
    cbn [realize_ascending].
    pose proof (pitch_space_below_top sc o n k ltac:(lia)) as [Hlo Hhi].
    assert ((pitch_space (tonic_at sc (o + n)) <=? pitch_space (degree_pitch sc o k)) = false)
      as -> by (apply Z.leb_gt; lia).
    assert ((pitch_space (tonic_at sc o) <=? pitch_space (degree_pitch sc o k)) = true)
      as -> by (apply Z.leb_le; lia).
    assert ((pitch_space (degree_pitch sc o k) <=? pitch_space (tonic_at sc (o + n))) = true)
      as -> by (apply Z.leb_le; lia).
    rewrite (IH attempts (k + 1)) by lia. cbn.
    replace (Z.to_nat (k + 1)) with (S (Z.to_nat k)) by lia.
    rewrite Z2Nat.id by lia. reflexivity.
Qed.

(** Beyond reach, the ascent gives up. *)
Lemma realize_ascending_gives_up (sc : MajorScale.t) (o n : Z) (attempts : nat) :
  forall k : Z,
    0 <= k -> k + Z.of_nat attempts <= 7 * n ->
    realize_ascending attempts sc o k
      (pitch_space (tonic_at sc o)) (pitch_space (tonic_at sc (o + n))) = None.
Proof.
  induction attempts as [|attempts IH]; intros k Hk Ha; [reflexivity|].
  cbn [realize_ascending].
  pose proof (pitch_space_below_top sc o n k ltac:(lia)) as [Hlo Hhi].
  assert ((pitch_space (tonic_at sc (o + n)) <=? pitch_space (degree_pitch sc o k)) = false)
    as -> by (apply Z.leb_gt; lia).
  rewrite (IH (k + 1)) by lia. reflexivity.
Qed.

Lemma realize_starts_at (sc : MajorScale.t) (o n : Z) :
  0 <= n ->
  realize sc (tonic_at sc o) (tonic_at sc (o + n))
  = realize_ascending max_attempts sc o 0
      (pitch_space (tonic_at sc o)) (pitch_space (tonic_at sc (o + n))).
Proof.
  intros Hn. unfold realize.
  rewrite (pitch_space_tonic_at sc o n).
  destruct (Z.ltb_spec (pitch_space (tonic_at sc o) + 12 * n) (pitch_space (tonic_at sc o)));
    [lia|].
  replace ((pitch_space (tonic_at sc o) - pitch_space (tonic_at sc 0)) / 12) with o.
  - destruct (realize_ascending _ _ _ _ _ _); reflexivity.
  - replace o with (0 + o) at 2 by lia. rewrite (pitch_space_tonic_at sc 0 o).
    Z.div_mod_to_equations; lia.
Qed.

(** The call on the two formatted bounds: up to fourteen octaves from
    a starting octave that is not negative it returns the scale
    between the two tonics; from fifteen octaves on it raises. *)
Lemma getPitches_between_octaves (sc : MajorScale.t) (o n : Z) :
  -4 <= tonic_alter sc <= 4 -> 0 <= o -> 0 <= n <= 14 ->
  getPitches_between sc (tonic_name sc +:+ str_of_int o)
                        (tonic_name sc +:+ str_of_int (o + n))
  = Some (getPitches sc o (o + n)).
Proof.
  intros Ha Ho Hn. unfold getPitches_between.
  rewrite !of_string_tonic by lia. cbn [mbind option_bind].
  rewrite realize_starts_at by lia.
  rewrite (realize_ascending_run sc o n (Z.to_nat (7 * n))) by (unfold max_attempts; lia).
  unfold getPitches. destruct (Z.ltb_spec (o + n) o); [lia|].
  do 3 f_equal. lia.
Qed.

Lemma getPitches_between_gives_up (sc : MajorScale.t) (o n : Z) :
  -4 <= tonic_alter sc <= 4 -> 0 <= o -> 15 <= n ->
  getPitches_between sc (tonic_name sc +:+ str_of_int o)
                        (tonic_name sc +:+ str_of_int (o + n))
  = None.
Proof.
  intros Ha Ho Hn. unfold getPitches_between.
  rewrite !of_string_tonic by lia. cbn [mbind option_bind].
  rewrite realize_starts_at by lia.
  apply realize_ascending_gives_up; unfold max_attempts; lia.
Qed.

End Bounds.

Lemma scale_pitches_of_octaves (scale_object : MajorScale.t) (octave_start num_octaves : Z) :
  -4 <= MajorScale.tonic_alter scale_object <= 4 ->
  0 <= octave_start -> 0 <= num_octaves <= 14 ->
  scale_pitches_of scale_object octave_start num_octaves
  = Some (MajorScale.getPitches scale_object octave_start (octave_start + num_octaves)).
Proof. apply getPitches_between_octaves. Qed.

Lemma scale_pitches_of_gives_up (scale_object : MajorScale.t) (octave_start num_octaves : Z) :
  -4 <= MajorScale.tonic_alter scale_object <= 4 ->
  0 <= octave_start -> 15 <= num_octaves ->
  scale_pitches_of scale_object octave_start num_octaves = None.
Proof. apply getPitches_between_gives_up. Qed.

Lemma scale_sequencer_octaves (scale_object : MajorScale.t) (octave_start num_octaves : Z) :
  -4 <= MajorScale.tonic_alter scale_object <= 4 ->
  0 <= octave_start -> 0 <= num_octaves <= 14 ->
  scale_sequencer scale_object octave_start num_octaves
  = Some (scale_all_pitches scale_object octave_start num_octaves).
Proof.
  intros Ha Ho Hn. unfold scale_sequencer.
  rewrite scale_pitches_of_octaves by assumption. reflexivity.
Qed.

Lemma create_scale_measures_octaves (title_text : string) (scale_object : MajorScale.t)
    (octave_start num_octaves : Z) :
  -4 <= MajorScale.tonic_alter scale_object <= 4 ->
  0 <= octave_start -> 0 <= num_octaves <= 14 ->
  create_scale_measures title_text scale_object octave_start num_octaves
  = pack_scale title_text (scale_all_pitches scale_object octave_start num_octaves).
Proof.
  intros Ha Ho Hn. unfold create_scale_measures.
  rewrite scale_sequencer_octaves by assumption. reflexivity.
Qed.

Lemma create_arpeggio_measures_octaves (title_text : string) (scale_object : MajorScale.t)
    (octave_start num_octaves : Z) :
  -4 <= MajorScale.tonic_alter scale_object <= 4 ->
  0 <= octave_start -> 0 <= num_octaves <= 14 ->
  create_arpeggio_measures title_text scale_object octave_start num_octaves
  = arpeggio_measures_of title_text
      (MajorScale.getPitches scale_object octave_start (octave_start + num_octaves))
      num_octaves.
Proof.
  intros Ha Ho Hn. unfold create_arpeggio_measures.
  rewrite scale_pitches_of_octaves by assumption. reflexivity.
Qed.

Lemma create_scale_measures_gives_up (title_text : string) (scale_object : MajorScale.t)
    (octave_start num_octaves : Z) :
  -4 <= MajorScale.tonic_alter scale_object <= 4 ->
  0 <= octave_start -> 15 <= num_octaves ->
  create_scale_measures title_text scale_object octave_start num_octaves = None.
Proof.
  intros Ha Ho Hn. unfold create_scale_measures, scale_sequencer.
  rewrite scale_pitches_of_gives_up by assumption. reflexivity.
Qed.

Lemma accidental_of_modifier_range (s : string) (a : Pitch.Accidental) :
  Pitch.accidental_of_modifier s = Some a -> -4 <= Pitch.alter a <= 4.
Proof.
  unfold Pitch.accidental_of_modifier. intros Ha.
  repeat case_match; simplify_eq; cbn [Pitch.alter];
    repeat match goal with
           | H : bool_decide _ = true |- _ => apply bool_decide_eq_true in H
           end; lia.
Qed.

(** A key the library reads has a tonic it can name again. *)
Lemma of_key_alter (key_signature : string) (sc : MajorScale.t) :
  MajorScale.of_key key_signature = Some sc -> -4 <= MajorScale.tonic_alter sc <= 4.
Proof.
  unfold MajorScale.of_key, Pitch.set_name. intros Hsc.
  destruct (Pitch.filter_chars _ key_signature) as [|c [|c' rest]]; [discriminate Hsc| |].
  - destruct (Pitch.step_of_ascii c); [|discriminate Hsc].
    cbn in Hsc. injection Hsc as <-. cbn. lia.
  - destruct (Pitch.step_of_ascii c); [|discriminate Hsc]. cbn in Hsc.
    destruct (Pitch.accidental_of_modifier (String c' rest)) as [a|] eqn:Ha;
      [|discriminate Hsc].
    cbn in Hsc. injection Hsc as <-. cbn. exact (accidental_of_modifier_range _ _ Ha).
Qed.

(** The fifteen major keys stand on a natural, a sharp or a flat. *)
Lemma sharps_alter (sc : MajorScale.t) :
  -7 <= MajorScale.sharps sc <= 7 -> -1 <= MajorScale.tonic_alter sc <= 1.
Proof. unfold MajorScale.sharps. destruct (MajorScale.tonic_step sc); lia. Qed.

Lemma instrument_map_values (instrument_name : string) (c : string * Z) :
  instrument_map !! instrument_name = Some c ->
  In c.1 clef_classes /\ 1 <= c.2 <= 5.
Proof.
  intros Hc. unfold instrument_map in Hc. apply elem_of_list_to_map_2 in Hc.
  revert Hc.
  apply (proj1 (Forall_forall
                  (fun kv : string * (string * Z) => In kv.2.1 clef_classes /\ 1 <= kv.2.2 <= 5)
                  _)).
  repeat (constructor; [cbn; split; [tauto|lia]|]). constructor.
Qed.

(** The octave a part starts from is one of the table's. *)
Lemma selected_octave_range (instrument_name : string) :
  1 <= (match determine_clef_and_octave instrument_name "right" with
        | ClefDict d => default ("TrebleClef", 4) (d !! "right")
        | ClefPair c => c
        end).2 <= 5.
Proof.
  unfold determine_clef_and_octave.
  destruct (bool_decide_reflect (instrument_name = "Piano")); [vm_compute; split; discriminate|].
  destruct (bool_decide_reflect (elem_of instrument_name unpitched_percussion));
    [cbn; lia|].
  destruct (instrument_map !! instrument_name) as [c|] eqn:Hm; cbv [default from_option id];
    [exact (proj2 (instrument_map_values _ _ Hm))|cbn; lia].
Qed.

(** C1 as stated fails at both ends of its range.  For C major from
    octave 4 over fifteen octaves the library gives up on the ascent
    and raises, so no sequence is output.  For C major from octave -1
    over one octave the lower bound is formatted as [C-1], which the
    library reads as C flat in octave 1: the sequence is not the
    fifteen pitches of one octave up and down and does not begin on
    the tonic at octave -1. *)
Lemma scale_sequencer_out_of_reach :
  scale_sequencer (MajorScale.mk Pitch.C 0) 4 15 = None /\
  Pitch.of_string (MajorScale.tonic_name (MajorScale.mk Pitch.C 0) +:+ Pitch.str_of_int (-1))
  = Some (Pitch.mk Pitch.C (Some (Pitch.mkAccidental (-1) None "normal")) 1) /\
  exists all_pitches : list Pitch.t,
    scale_sequencer (MajorScale.mk Pitch.C 0) (-1) 1 = Some all_pitches /\
    Z.of_nat (length all_pitches) <> 2 * (7 * 1) + 1 /\
    head all_pitches <> Some (MajorScale.tonic_at (MajorScale.mk Pitch.C 0) (-1)).
Proof.
  split; [vm_compute; reflexivity|].
  split; [vm_compute; reflexivity|].
  eexists. split; [vm_compute; reflexivity|].
  split; [vm_compute; discriminate|vm_compute; discriminate].
Qed.

(** C1, amended: for the tonic of each of the fifteen major keys,
    every starting octave from 0 on and every number of octaves from
    1 to 14, the scale sequencer gives the ascending major scale
    from the tonic at the starting octave to the tonic [num_octaves]
    higher (each pitch one staff position above the last, a
    major-scale interval above the tonic), followed by the reverse of
    the ascent without its top; the sequence has
    2 * (7 * num_octaves) + 1 pitches, begins and ends on the tonic at
    the starting octave and holds the top pitch once.  From fifteen
    octaves on nothing is output: the library raises.  For C, octave
    4, one octave the sequence is
    C4 D4 E4 F4 G4 A4 B4 C5 B4 A4 G4 F4 E4 D4 C4. *)
Theorem scale_all_pitches_up_and_down
    (scale_object : MajorScale.t) (octave_start num_octaves : Z) :
  -7 <= MajorScale.sharps scale_object <= 7 ->
  0 <= octave_start ->
  0 < num_octaves <= 14 ->
  let pitches_up := MajorScale.getPitches scale_object octave_start (octave_start + num_octaves) in
  let all_pitches := scale_all_pitches scale_object octave_start num_octaves in
  let bottom := MajorScale.tonic_at scale_object octave_start in
  let apex := MajorScale.tonic_at scale_object (octave_start + num_octaves) in
  scale_pitches_of scale_object octave_start num_octaves = Some pitches_up /\
  scale_sequencer scale_object octave_start num_octaves = Some all_pitches /\
  all_pitches = pitches_up ++ rev (removelast pitches_up) /\
  Z.of_nat (length pitches_up) = 7 * num_octaves + 1 /\
  head pitches_up = Some bottom /\
  last pitches_up = Some apex /\
  (forall (k : nat) (p : Pitch.t),
     pitches_up !! k = Some p ->
     MajorScale.diatonic_number p = MajorScale.diatonic_number bottom + Z.of_nat k /\
     MajorScale.pitch_space p
     = MajorScale.pitch_space bottom + 12 * (Z.of_nat k / 7)
       + MajorScale.major_offset (Z.of_nat k mod 7)) /\
  Z.of_nat (length all_pitches) = 2 * (7 * num_octaves) + 1 /\
  head all_pitches = Some bottom /\
  last all_pitches = Some bottom /\
  count_occ Pitch.eq_dec all_pitches apex = 1%nat /\
  (forall beyond : Z,
     15 <= beyond -> scale_sequencer scale_object octave_start beyond = None) /\
  map Pitch.nameWithOctave <$> scale_sequencer (MajorScale.mk Pitch.C 0) 4 1
  = Some ["C4"; "D4"; "E4"; "F4"; "G4"; "A4"; "B4"; "C5";
          "B4"; "A4"; "G4"; "F4"; "E4"; "D4"; "C4"].
Proof.
  intros Ha Ho Hn pitches_up all_pitches bottom apex.
  apply sharps_alter in Ha.
  assert (0 <= num_octaves) as Hn0 by lia.
  pose proof (getPitches_snoc scale_object octave_start num_octaves Hn0) as Hup.
  fold pitches_up in Hup. fold apex in Hup.
  set (below := map (fun k => MajorScale.degree_pitch scale_object octave_start (Z.of_nat k))
                    (seq 0 (Z.to_nat (7 * num_octaves)))) in Hup.
  assert (length below = Z.to_nat (7 * num_octaves)) as Hlen
    by (unfold below; rewrite length_map, length_seq; reflexivity).
  assert (exists rest, below = bottom :: rest) as [rest Hbelow].
  { unfold below.
    replace (Z.to_nat (7 * num_octaves)) with (S (Z.to_nat (7 * num_octaves - 1))) by lia.
    cbn [seq map]. rewrite degree_pitch_0. eauto. }
  assert (all_pitches = pitches_up ++ rev (removelast pitches_up)) as Hall by reflexivity.
  assert (removelast pitches_up = below) as Hdown by (rewrite Hup; apply removelast_last).
  split; [apply scale_pitches_of_octaves; lia|].
  split; [apply scale_sequencer_octaves; lia|].
  split; [exact Hall|].
  split; [rewrite Hup, length_app, Hlen; cbn; lia|].
  split; [rewrite Hup, Hbelow; reflexivity|].
  split; [rewrite Hup; apply last_snoc|].
  split.
  { intros k p Hk.
    assert (k < Z.to_nat (7 * num_octaves + 1))%nat as Hlt.
    { apply lookup_lt_Some in Hk. unfold pitches_up in Hk.
      rewrite getPitches_length in Hk by lia. exact Hk. }
    unfold pitches_up in Hk. rewrite getPitches_lookup in Hk by lia.
    injection Hk as <-. split.
    - apply diatonic_number_degree. lia.
    - apply pitch_space_degree. }
  rewrite Hall, Hdown.
  split; [rewrite length_app, length_rev, Hup, length_app, Hlen; cbn; lia|].
  split; [rewrite Hup, Hbelow; reflexivity|].
  split.
  { rewrite Hbelow. cbn [rev]. rewrite app_assoc. apply last_snoc. }
  split.
  { rewrite count_occ_app, count_occ_rev, Hup, count_occ_app.
    unfold below, apex. rewrite below_top_not_apex by lia.
    cbn [count_occ]. destruct (Pitch.eq_dec _ _); [reflexivity|congruence]. }
  split; [|vm_compute; reflexivity].
  intros beyond Hbeyond. unfold scale_sequencer.
  rewrite scale_pitches_of_gives_up by lia. reflexivity.
Qed.

Lemma scale_all_pitches_up_and_down_witness :
  map Pitch.nameWithOctave <$> scale_sequencer (MajorScale.mk Pitch.B (-1)) 3 2
  = Some
      ["B-3"; "C4"; "D4"; "E-4"; "F4"; "G4"; "A4"; "B-4"; "C5"; "D5"; "E-5"; "F5"; "G5"; "A5";
       "B-5";
       "A5"; "G5"; "F5"; "E-5"; "D5"; "C5"; "B-4"; "A4"; "G4"; "F4"; "E-4"; "D4"; "C4"; "B-3"] /\
  scale_sequencer (MajorScale.mk Pitch.B (-1)) 3 2
  = Some (scale_all_pitches (MajorScale.mk Pitch.B (-1)) 3 2) /\
  Z.of_nat (length (scale_all_pitches (MajorScale.mk Pitch.B (-1)) 3 2)) = 2 * (7 * 2) + 1 /\
  count_occ Pitch.eq_dec (scale_all_pitches (MajorScale.mk Pitch.B (-1)) 3 2)
            (MajorScale.tonic_at (MajorScale.mk Pitch.B (-1)) (3 + 2)) = 1%nat /\
  scale_sequencer (MajorScale.mk Pitch.B (-1)) 3 15 = None.
Proof.
  split; [vm_compute; reflexivity|].
  pose proof (scale_all_pitches_up_and_down (MajorScale.mk Pitch.B (-1)) 3 2
                ltac:(vm_compute; split; discriminate) ltac:(lia) ltac:(lia)) as H.
  cbv zeta in H.
  split; [apply H|]. split; [apply H|]. split; [apply H|].
  apply H. lia.
Defined.

(** ** The arpeggio sequencer *)

Lemma snoc_of_nonempty {X} (l : list X) :
  l <> [] -> exists init x, l = init ++ [x] /\ removelast l = init /\ last l = Some x.
Proof.
  intros Hl. destruct (exists_last Hl) as [init [x ->]].
  exists init, x. split; [reflexivity|]. split; [apply removelast_last|apply last_snoc].
Qed.

Section ArpeggioSequencer.

Variable scale_pitches : list Pitch.t.
Variable num_octaves : Z.

Lemma py_index_in_range (i : Z) (d : Pitch.t) :
  0 <= i < Z.of_nat (length scale_pitches) ->
  py_index scale_pitches i = Some (nth (Z.to_nat i) scale_pitches d).
Proof.
  intros Hi. unfold py_index. destruct (Z.leb_spec 0 i); [|lia].
  rewrite nth_lookup.
  destruct (lookup_lt_is_Some_2 scale_pitches (Z.to_nat i) ltac:(lia)) as [x ->].
  reflexivity.
Qed.

Lemma py_index_out_of_range (i : Z) :
  Z.of_nat (length scale_pitches) <= i -> py_index scale_pitches i = None.
Proof.
  intros Hi. unfold py_index. destruct (Z.leb_spec 0 i); [|lia].
  apply lookup_ge_None_2. lia.
Qed.

(** A round of the loop adds the octave's tones, all or none. *)
Lemma arpeggio_octave_tones (arpeggio_up : list Pitch.t) (o : Z) :
  arpeggio_octave scale_pitches num_octaves arpeggio_up o
  = arpeggio_up ++ octave_tones scale_pitches num_octaves o.
Proof.
  unfold arpeggio_octave, octave_tones, required_indices.
  replace (7 * o + 0) with (7 * o) by lia.
  destruct (o <? num_octaves - 1); cbn [mapM];
    repeat (match goal with
            | |- context [py_index scale_pitches ?i] =>
                destruct (py_index scale_pitches i); cbn; rewrite ?app_nil_r; try reflexivity
            end).
Qed.

Lemma arpeggio_fold (l : list Z) (arpeggio_up : list Pitch.t) :
  fold_left (arpeggio_octave scale_pitches num_octaves) l arpeggio_up
  = arpeggio_up ++ concat (map (octave_tones scale_pitches num_octaves) l).
Proof.
  revert arpeggio_up. induction l as [|o l IH]; intros arpeggio_up; cbn [fold_left map concat].
  - rewrite app_nil_r. reflexivity.
  - rewrite IH, arpeggio_octave_tones, <- app_assoc. reflexivity.
Qed.

Lemma arpeggio_up_of_concat :
  arpeggio_up_of scale_pitches num_octaves
  = concat (map (octave_tones scale_pitches num_octaves) (py_range num_octaves)).
Proof. unfold arpeggio_up_of. rewrite arpeggio_fold. reflexivity. Qed.

(** An octave with an index past the end of the scale adds nothing. *)
Lemma octave_tones_overrun (o : Z) :
  Exists (fun i => Z.of_nat (length scale_pitches) <= i) (required_indices num_octaves o) ->
  octave_tones scale_pitches num_octaves o = [].
Proof.
  intros Hex. unfold octave_tones.
  destruct (mapM (py_index scale_pitches) (required_indices num_octaves o)) as [tones|] eqn:Hm;
    [|reflexivity].
  exfalso. apply mapM_Some_1 in Hm. apply Exists_exists in Hex as [i [Hin Hi]].
  apply list_elem_of_lookup_1 in Hin as [j Hj].
  destruct (Forall2_lookup_l _ _ _ _ _ Hm Hj) as [y [_ Hy]].
  rewrite py_index_out_of_range in Hy by lia. discriminate.
Qed.

Lemma mapM_py_index_in_range (d : Pitch.t) (l : list Z) :
  Forall (fun i => 0 <= i < Z.of_nat (length scale_pitches)) l ->
  mapM (py_index scale_pitches) l = Some (map (fun i => nth (Z.to_nat i) scale_pitches d) l).
Proof.
  induction 1 as [|i l Hi _ IH]; cbn [mapM map]; [reflexivity|].
  rewrite (py_index_in_range i d Hi), IH. reflexivity.
Qed.

Hypothesis octaves_pos : 0 < num_octaves.
Hypothesis full_scale : Z.of_nat (length scale_pitches) = 7 * num_octaves + 1.

Lemma octave_tones_inner (d : Pitch.t) (o : nat) :
  Z.of_nat o < num_octaves - 1 ->
  octave_tones scale_pitches num_octaves (Z.of_nat o) = octave_triad scale_pitches d o.
Proof.
  intros Ho. unfold octave_tones, required_indices.
  destruct (Z.ltb_spec (Z.of_nat o) (num_octaves - 1)); [|lia].
  rewrite (mapM_py_index_in_range d) by (repeat constructor; lia).
  cbv [default from_option id]. cbn [map]. unfold octave_triad. repeat f_equal; lia.
Qed.

Lemma octave_tones_last (d : Pitch.t) (o : nat) :
  Z.of_nat o = num_octaves - 1 ->
  octave_tones scale_pitches num_octaves (Z.of_nat o)
  = octave_triad scale_pitches d o ++ [nth (7 * S o) scale_pitches d].
Proof.
  intros Ho. unfold octave_tones, required_indices.
  destruct (Z.ltb_spec (Z.of_nat o) (num_octaves - 1)); [lia|].
  rewrite (mapM_py_index_in_range d) by (repeat constructor; lia).
  cbv [default from_option id]. cbn [map]. unfold octave_triad. cbn [app].
  repeat f_equal; lia.
Qed.

(** With the whole scale at hand: root, third and fifth of every
    octave, and the top tone after the last fifth. *)
Lemma arpeggio_up_full (d : Pitch.t) :
  arpeggio_up_of scale_pitches num_octaves
  = flat_map (octave_triad scale_pitches d) (seq 0 (Z.to_nat num_octaves))
    ++ [nth (7 * Z.to_nat num_octaves) scale_pitches d].
Proof.
  rewrite arpeggio_up_of_concat. unfold py_range.
  replace (Z.to_nat num_octaves) with (S (Z.to_nat (num_octaves - 1))) by lia.
  set (m := Z.to_nat (num_octaves - 1)).
  rewrite seq_S, !map_app, concat_app, flat_map_app. cbn [plus map concat flat_map].
  rewrite (octave_tones_last d) by lia. rewrite !app_nil_r, <- app_assoc.
  f_equal. rewrite flat_map_concat_map, map_map. f_equal.
  apply map_ext_in. intros o Ho. apply in_seq in Ho.
  apply octave_tones_inner. lia.
Qed.

Lemma length_flat_map_triad (d : Pitch.t) (l : list nat) :
  length (flat_map (octave_triad scale_pitches d) l) = (3 * length l)%nat.
Proof. induction l as [|o l IH]; cbn [flat_map length app octave_triad]; lia. Qed.

Lemma arpeggio_up_length :
  Z.of_nat (length (arpeggio_up_of scale_pitches num_octaves)) = 3 * (num_octaves - 1) + 4.
Proof.
  destruct (lookup_lt_is_Some_2 scale_pitches 0 ltac:(lia)) as [d _].
  rewrite (arpeggio_up_full d), length_app, length_flat_map_triad, length_seq.
  cbn [length]. lia.
Qed.

Lemma arpeggio_all_length :
  Z.of_nat (length (arpeggio_all_pitches scale_pitches num_octaves))
  = 2 * (3 * (num_octaves - 1) + 4) - 1.
Proof.
  unfold arpeggio_all_pitches. pose proof arpeggio_up_length as Hup.
  destruct (Z.ltb_spec 1 (Z.of_nat (length (arpeggio_up_of scale_pitches num_octaves)))); [|lia].
  rewrite length_app, length_rev.
  destruct (snoc_of_nonempty (arpeggio_up_of scale_pitches num_octaves)) as [init [x [Heq [-> _]]]].
  { intros Hnil. rewrite Hnil in Hup. cbn [length] in Hup. lia. }
  rewrite Heq, length_app in *. cbn [length] in *. lia.
Qed.

End ArpeggioSequencer.

(** ** The measure loops *)

Lemma new_note_spelled (p : Pitch.t) (type : string) :
  new_note p type = Some (spelled_note p type).
Proof. unfold new_note. rewrite fix_enharmonic_spelling_respell. reflexivity. Qed.

(** A pitch that has been through the speller gives the note it gave
    the first time. *)
Lemma new_note_again (p : Pitch.t) (type : string) :
  new_note (respell p) type = new_note p type.
Proof. rewrite !new_note_spelled. unfold spelled_note. rewrite respell_idempotent. reflexivity. Qed.

Lemma scale_round_pack_round title_text len st i p :
  scale_round title_text len st i p = pack_round 7 "quarter" title_text len st i p.
Proof. reflexivity. Qed.

Lemma arpeggio_round_pack_round title_text len st i p :
  arpeggio_round title_text len st i p = pack_round 8 "eighth" title_text len st i p.
Proof.
  unfold arpeggio_round, pack_round.
  destruct (i =? len - 1); [reflexivity|].
  destruct (note_counter st mod 8 =? 0); reflexivity.
Qed.

Lemma for_enumerate_ext {St X} (f g : St -> Z -> X -> option (St * bool)) :
  (forall st i x, f st i x = g st i x) ->
  forall l st i, for_enumerate f st i l = for_enumerate g st i l.
Proof.
  intros Hfg l. induction l as [|x l IH]; intros st i; cbn [for_enumerate]; [reflexivity|].
  rewrite Hfg. destruct (g st i x) as [[st' [|]]|]; auto.
Qed.

Lemma notes_group_measure title_text titled g :
  notes (group_measure title_text titled g) = g.
Proof.
  unfold notes, group_measure, Stream.elements. cbn [Stream.at_start Stream.appended].
  rewrite omap_app.
  assert (omap note_of (map NoteElement g) = g) as ->
    by (induction g as [|n g IH]; cbn; [|rewrite IH]; reflexivity).
  destruct titled; reflexivity.
Qed.

Lemma measures_of_snoc title_text gs g :
  measures_of title_text (gs ++ [g])
  = measures_of title_text gs ++ [group_measure title_text (is_nil gs) g].
Proof. destruct gs as [|g0 gs]; cbn; [reflexivity|]. rewrite map_app. reflexivity. Qed.

Lemma map_notes_measures_of title_text groups :
  map notes (measures_of title_text groups) = groups.
Proof.
  destruct groups as [|g rest]; cbn [measures_of map]; [reflexivity|].
  rewrite notes_group_measure, map_map. f_equal.
  induction rest as [|g' rest IH]; cbn [map]; [|rewrite notes_group_measure, IH]; reflexivity.
Qed.

Section Packer.

Variable notes_per_measure : Z.
Variables first_type title_text : string.
Hypothesis capacity_pos : 0 < notes_per_measure.

Local Abbreviation group_ok_ := (group_ok notes_per_measure first_type).
Local Abbreviation Filled_ := (Filled notes_per_measure first_type).
Local Abbreviation state_of_ := (state_of notes_per_measure title_text).

Lemma close_measure_state_of gs g :
  g <> [] ->
  close_measure (state_of_ gs g) = Stream.mk [] (measures_of title_text (gs ++ [g])).
Proof.
  intros Hg. unfold close_measure, state_of. cbn [current_measure measures_stream].
  unfold has_notes. rewrite notes_group_measure.
  destruct g as [|n g]; [congruence|].
  rewrite measures_of_snoc. reflexivity.
Qed.

Lemma group_ok_nonempty g : group_ok_ g -> g <> [].
Proof. intros [n [ns [-> _]]]. discriminate. Qed.

Lemma Filled_open_ok pre gs g : Filled_ pre gs g -> group_ok_ g.
Proof.
  intros [_ _ Hok _]. rewrite Forall_app in Hok. destruct Hok as [_ Hg].
  inversion Hg; assumption.
Qed.

Lemma first_round (len : Z) (p : Pitch.t) :
  0 <> len - 1 ->
  pack_round notes_per_measure first_type title_text len Packing_start 0 p
  = Some (state_of_ [] [spelled_note p first_type], false)
  /\ Filled_ [p] [] [spelled_note p first_type].
Proof.
  intros Hlen. split.
  - unfold pack_round. destruct (Z.eqb_spec 0 (len - 1)); [lia|].
    cbn [Packing_start note_counter]. rewrite Z.mod_0_l by lia. cbn [Z.eqb].
    rewrite new_note_spelled. cbn [mbind option_bind]. unfold state_of.
    cbn [length is_nil measures_of]. same_packing.
  - split; cbn.
    + constructor.
    + lia.
    + repeat constructor. exists (spelled_note p first_type), [].
      cbn. repeat split; [lia|constructor].
    + reflexivity.
Qed.

Lemma next_round (len : Z) (pre : list Pitch.t) gs g (p : Pitch.t) :
  Filled_ pre gs g ->
  Z.of_nat (length pre) <> len - 1 ->
  exists gs' g',
    pack_round notes_per_measure first_type title_text len
               (state_of_ gs g) (Z.of_nat (length pre)) p
    = Some (state_of_ gs' g', false)
    /\ Filled_ (pre ++ [p]) gs' g'.
Proof.
  intros HF Hlen. pose proof (Filled_open_ok _ _ _ HF) as Hg.
  destruct HF as [Hfull Hcount Hok Hpitches].
  destruct Hg as [n0 [ns [Hgeq [Hgle [Hn0 Hns]]]]].
  assert (1 <= Z.of_nat (length g)) as Hg1 by (rewrite Hgeq; cbn [length]; lia).
  unfold pack_round. destruct (Z.eqb_spec (Z.of_nat (length pre)) (len - 1)); [lia|].
  cbn [state_of note_counter].
  rewrite Z.add_comm, Z.mul_comm, Z.mod_add by lia.
  destruct (Z.eqb_spec (Z.of_nat (length g) mod notes_per_measure) 0) as [Hmod|Hmod].
  - (* the open group is full: a new measure *)
    assert (Z.of_nat (length g) = notes_per_measure) as Hfullg.
    { destruct (Z.eq_dec (Z.of_nat (length g)) notes_per_measure) as [|Hne]; [assumption|].
      rewrite Z.mod_small in Hmod by lia. lia. }
    exists (gs ++ [g]), [spelled_note p first_type]. split.
    + rewrite new_note_spelled. cbn [mbind option_bind].
      fold (state_of_ gs g). rewrite close_measure_state_of by (rewrite Hgeq; discriminate).
      destruct (Z.eqb_spec (Z.of_nat (length pre)) 0); [lia|].
      unfold state_of. rewrite length_app. cbn [length].
      assert (is_nil (gs ++ [g]) = false) as -> by (destruct gs; reflexivity).
      same_packing.
    + split.
      * rewrite Forall_app. split; [assumption|]. constructor; [assumption|constructor].
      * rewrite !length_app. cbn [length]. lia.
      * rewrite Forall_app. split; [assumption|]. constructor; [|constructor].
        exists (spelled_note p first_type), []. cbn. repeat split; [lia|constructor].
      * rewrite concat_app, map_app, Hpitches, map_app. reflexivity.
  - (* room left: the note joins the open group *)
    assert (Z.of_nat (length g) < notes_per_measure) as Hroom.
    { destruct (Z.eq_dec (Z.of_nat (length g)) notes_per_measure) as [Heq|Hne]; [|lia].
      rewrite Heq, Z.mod_same in Hmod by lia. congruence. }
    exists gs, (g ++ [spelled_note p "eighth"]). split.
    + rewrite new_note_spelled. cbn [mbind option_bind].
      unfold state_of, group_measure, Stream.append.
      cbn [measures_stream current_measure Stream.at_start Stream.appended].
      rewrite map_app, length_app. cbn [length map]. same_packing.
    + split.
      * assumption.
      * rewrite !length_app. cbn [length]. lia.
      * rewrite Forall_app in Hok. destruct Hok as [Hgs _].
        rewrite Forall_app. split; [assumption|].
        constructor; [|constructor].
        exists n0, (ns ++ [spelled_note p "eighth"]). rewrite Hgeq. cbn [app].
        repeat split.
        -- rewrite Hgeq in Hroom. cbn [length] in *. rewrite length_app. cbn [length]. lia.
        -- assumption.
        -- rewrite Forall_app. split; [assumption|]. constructor; [reflexivity|constructor].
      * rewrite !concat_app in *. cbn [concat] in *. rewrite !app_nil_r in *.
        rewrite app_assoc, map_app, Hpitches, map_app. reflexivity.
Qed.

Lemma last_round_state_of (pre : list Pitch.t) gs g (p : Pitch.t) :
  Filled_ pre gs g ->
  last_note_round title_text (state_of_ gs g) (Z.of_nat (length pre)) p
  = Some (mkPacking
            (Stream.mk [] (measures_of title_text ((gs ++ [g]) ++ [[spelled_note p "whole"]])))
            (current_measure (state_of_ gs g)) (note_counter (state_of_ gs g)), true).
Proof.
  intros HF. pose proof (group_ok_nonempty _ (Filled_open_ok _ _ _ HF)) as Hg.
  assert (1 <= Z.of_nat (length pre)) as Hpre.
  { destruct HF as [_ Hcount _ _]. destruct g; [congruence|]. cbn [length] in Hcount. nia. }
  unfold last_note_round. rewrite close_measure_state_of by assumption.
  destruct (Z.eqb_spec (Z.of_nat (length pre)) 0); [lia|].
  rewrite new_note_spelled. cbn [mbind option_bind].
  rewrite (measures_of_snoc _ (gs ++ [g])).
  assert (is_nil (gs ++ [g]) = false) as -> by (destruct gs; reflexivity).
  reflexivity.
Qed.

(** From any point of the running figure the loop runs to its end
    and closes with the measure of the final note. *)
Lemma rounds_to_the_end (len : Z) (l : list Pitch.t) (plast : Pitch.t) :
  forall (pre : list Pitch.t) gs g,
    Filled_ pre gs g ->
    len = Z.of_nat (length pre) + Z.of_nat (length l) + 1 ->
    exists gs' g',
      Filled_ (pre ++ l) gs' g' /\
      measures_stream <$>
        for_enumerate (pack_round notes_per_measure first_type title_text len)
                      (state_of_ gs g) (Z.of_nat (length pre)) (l ++ [plast])
      = Some (Stream.mk [] (measures_of title_text
                               ((gs' ++ [g']) ++ [[spelled_note plast "whole"]]))).
Proof.
  induction l as [|p l IH]; intros pre gs g HF Hlen.
  - exists gs, g. rewrite app_nil_r. split; [assumption|].
    cbn [app for_enumerate length] in *. unfold pack_round.
    destruct (Z.eqb_spec (Z.of_nat (length pre)) (len - 1)); [|lia].
    rewrite (last_round_state_of _ _ _ _ HF). reflexivity.
  - cbn [length] in Hlen.
    destruct (next_round len pre gs g p HF ltac:(lia)) as [gs1 [g1 [Hround HF1]]].
    destruct (IH (pre ++ [p]) gs1 g1 HF1) as [gs' [g' [HF' Hrun]]].
    { rewrite length_app. cbn [length]. lia. }
    exists gs', g'. rewrite <- app_assoc in HF'. split; [exact HF'|].
    cbn [app for_enumerate]. rewrite Hround.
    rewrite length_app in Hrun. cbn [length] in Hrun.
    replace (Z.of_nat (length pre) + 1) with (Z.of_nat (length pre + 1)) by lia.
    exact Hrun.
Qed.

(** The whole loop: the measures of the running figure, then the
    measure of the final note. *)
Lemma pack_rounds (init : list Pitch.t) (plast : Pitch.t) :
  exists groups : list (list Note),
    measures_stream <$>
      for_enumerate (pack_round notes_per_measure first_type title_text
                                (Z.of_nat (length (init ++ [plast]))))
                    Packing_start 0 (init ++ [plast])
    = Some (Stream.mk [] (measures_of title_text (groups ++ [[spelled_note plast "whole"]])))
    /\ ((init = [] /\ groups = []) \/
        (exists gs g, groups = gs ++ [g] /\ Filled_ init gs g)).
Proof.
  destruct init as [|p0 l].
  - exists []. split; [|left; split; reflexivity].
    cbn [app length for_enumerate]. unfold pack_round, last_note_round.
    rewrite new_note_spelled. reflexivity.
  - set (len := Z.of_nat (length ((p0 :: l) ++ [plast]))).
    assert (len = Z.of_nat (length l) + 2) as Hlen
      by (unfold len; cbn [app length]; rewrite length_app; cbn [length]; lia).
    destruct (first_round len p0 ltac:(lia)) as [Hround HF].
    destruct (rounds_to_the_end len l plast [p0] _ _ HF ltac:(cbn [length]; lia))
      as [gs' [g' [HF' Hrun]]].
    exists (gs' ++ [g']). split; [|right; eauto].
    cbn [app for_enumerate]. rewrite Hround. exact Hrun.
Qed.

End Packer.

Lemma pack_scale_rounds title_text all_pitches :
  pack_scale title_text all_pitches
  = measures_stream <$>
      for_enumerate (pack_round 7 "quarter" title_text (Z.of_nat (length all_pitches)))
                    Packing_start 0 all_pitches.
Proof.
  unfold pack_scale.
  rewrite (for_enumerate_ext _ _
             (scale_round_pack_round title_text (Z.of_nat (length all_pitches)))).
  destruct (for_enumerate _ _ _ _); reflexivity.
Qed.

Lemma pack_arpeggio_rounds title_text all_pitches :
  pack_arpeggio title_text all_pitches
  = measures_stream <$>
      for_enumerate (pack_round 8 "eighth" title_text (Z.of_nat (length all_pitches)))
                    Packing_start 0 all_pitches.
Proof.
  unfold pack_arpeggio.
  rewrite (for_enumerate_ext _ _
             (arpeggio_round_pack_round title_text (Z.of_nat (length all_pitches)))).
  destruct (for_enumerate _ _ _ _); reflexivity.
Qed.

Lemma full_groups_lookup (cap : Z) (gs : list (list Note)) (g : list Note) (k : nat) g' :
  Forall (fun g' => Z.of_nat (length g') = cap) gs ->
  (gs ++ [g]) !! k = Some g' ->
  (S k < length (gs ++ [g]))%nat ->
  Z.of_nat (length g') = cap.
Proof.
  intros Hfull Hk Hlt. rewrite length_app in Hlt. cbn [length] in Hlt.
  rewrite lookup_app_l in Hk by lia.
  rewrite Forall_lookup in Hfull. exact (Hfull _ _ Hk).
Qed.

Lemma snoc_is_cons {X} (l : list X) (x : X) : exists y rest, l ++ [x] = y :: rest.
Proof. destruct l as [|y l]; cbn [app]; eauto. Qed.

Lemma titled_first title_text (groups : list (list Note)) (final : list Note) :
  exists first rest,
    measures_of title_text (groups ++ [final]) = first :: rest /\
    Stream.at_start first = [TextExpression title_text "above"] /\
    Forall (fun m => Stream.at_start m = []) rest.
Proof.
  destruct groups as [|g groups]; cbn [app measures_of];
    eexists; eexists; (split; [reflexivity|]); (split; [reflexivity|]).
  - constructor.
  - rewrite Forall_map. apply Forall_forall. intros; reflexivity.
Qed.

(** C2: a non-empty pitch sequence packed as a scale.  The result is
    a stream of measures, one for each group of [groups] and a last
    one for the final note.  The groups hold the notes before the
    final one, in order and respelled; each group has at least one
    and at most seven notes, the first of quarter duration and the
    others of eighth duration, and every group but the last has
    seven.  The final note stands alone in the last measure, with
    whole duration.  The first measure of the stream, which is that
    last measure when there is a single pitch, carries the title and
    no other measure does; no measure is without notes; fifteen
    pitches give measures of 7, 7 and 1 notes. *)
Theorem pack_scale_measures (title_text : string) (all_pitches : list Pitch.t) :
  all_pitches <> [] ->
  exists (groups : list (list Note)) (final : Note),
    let measures := measures_of title_text (groups ++ [[final]]) in
    pack_scale title_text all_pitches = Some (Stream.mk [] measures) /\
    map notes measures = groups ++ [[final]] /\
    map pitch (concat groups) = map (fun p => Some (respell p)) (removelast all_pitches) /\
    Forall (fun g => exists n ns,
                g = n :: ns /\
                Z.of_nat (length g) <= 7 /\
                duration n = DurationType "quarter" /\
                Forall (fun n' => duration n' = DurationType "eighth") ns) groups /\
    (forall (k : nat) (g : list Note),
       groups !! k = Some g -> (S k < length groups)%nat -> Z.of_nat (length g) = 7) /\
    pitch final = respell <$> last all_pitches /\
    duration final = DurationType "whole" /\
    (exists first rest,
       measures = first :: rest /\
       Stream.at_start first = [TextExpression title_text "above"] /\
       Forall (fun m => Stream.at_start m = []) rest) /\
    Forall (fun m => notes m <> []) measures /\
    (length all_pitches = 1%nat -> groups = []) /\
    (length all_pitches = 15%nat -> map length (map notes measures) = [7; 7; 1]%nat).
Proof.
  intros Hne. destruct (snoc_of_nonempty all_pitches Hne) as [init [plast [Hall [Hinit Hlast]]]].
  destruct (pack_rounds 7 "quarter" title_text ltac:(lia) init plast)
    as [groups [Hrun Hgroups]].
  exists groups, (spelled_note plast "whole"). cbv zeta.
  rewrite map_notes_measures_of, Hinit, Hlast.
  split; [rewrite pack_scale_rounds, Hall; exact Hrun|].
  split; [reflexivity|].
  assert (Forall (fun g => g <> []) groups /\
          map pitch (concat groups) = map (fun p => Some (respell p)) init /\
          Forall (group_ok 7 "quarter") groups /\
          (forall (k : nat) (g : list Note),
             groups !! k = Some g -> (S k < length groups)%nat -> Z.of_nat (length g) = 7) /\
          (length all_pitches = 1%nat -> groups = []) /\
          (length all_pitches = 15%nat -> map length groups = [7; 7]%nat))
    as [Hnonempty [Hpitches [Hok [Hfull [Hone Hfifteen]]]]].
  { destruct Hgroups as [[-> ->]|[gs [g [-> HF]]]].
    - repeat split; try constructor; try reflexivity.
      + intros k g Hk. rewrite lookup_nil in Hk. discriminate Hk.
      + intros Hl. rewrite Hall in Hl. discriminate Hl.
    - pose proof HF as [Hfull Hcount Hok Hpitches].
      split; [eapply Forall_impl; [exact Hok|]; intros g'; apply group_ok_nonempty|].
      split; [exact Hpitches|]. split; [exact Hok|].
      split; [intros k g' Hk Hlt; exact (full_groups_lookup 7 gs g k g' Hfull Hk Hlt)|].
      pose proof (Filled_open_ok _ _ _ _ _ HF) as [n [ns [Hg [Hle _]]]].
      assert (1 <= Z.of_nat (length g)) by (rewrite Hg; cbn [length]; lia).
      subst all_pitches. rewrite length_app. cbn [length]. split; intros Hl.
      + lia.
      + assert (length gs = 1%nat) as Hgs by lia.
        destruct gs as [|g1 [|? ?]]; try discriminate Hgs.
        inversion Hfull as [|? ? Hg1 _]; subst. cbn [app map length] in *.
        repeat f_equal; lia. }
  split; [exact Hpitches|]. split; [exact Hok|]. split; [exact Hfull|].
  split; [reflexivity|]. split; [reflexivity|].
  split; [apply titled_first|].
  split.
  { rewrite <- (Forall_map notes (fun g => g <> [])). rewrite map_notes_measures_of.
    rewrite Forall_app. split; [exact Hnonempty|]. constructor; [discriminate|constructor]. }
  split; [exact Hone|].
  intros Hl. rewrite map_app, (Hfifteen Hl). reflexivity.
Qed.

Lemma pack_scale_shape title_text all_pitches :
  all_pitches <> [] ->
  exists groups final,
    pack_scale title_text all_pitches
    = Some (Stream.mk [] (measures_of title_text (groups ++ [[final]]))).
Proof.
  intros Hne. destruct (snoc_of_nonempty all_pitches Hne) as [init [plast [-> _]]].
  destruct (pack_rounds 7 "quarter" title_text ltac:(lia) init plast) as [groups [Hrun _]].
  exists groups, (spelled_note plast "whole"). rewrite pack_scale_rounds. exact Hrun.
Qed.

Lemma pack_arpeggio_shape title_text all_pitches :
  all_pitches <> [] ->
  exists groups final,
    pack_arpeggio title_text all_pitches
    = Some (Stream.mk [] (measures_of title_text (groups ++ [[final]]))).
Proof.
  intros Hne. destruct (snoc_of_nonempty all_pitches Hne) as [init [plast [-> _]]].
  destruct (pack_rounds 8 "eighth" title_text ltac:(lia) init plast) as [groups [Hrun _]].
  exists groups, (spelled_note plast "whole"). rewrite pack_arpeggio_rounds. exact Hrun.
Qed.

Lemma pack_arpeggio_total title_text all_pitches :
  is_Some (pack_arpeggio title_text all_pitches).
Proof.
  destruct all_pitches as [|p l]; [eexists; reflexivity|].
  destruct (pack_arpeggio_shape title_text (p :: l) ltac:(discriminate)) as [? [? ->]]. eauto.
Qed.

(** ** The arpeggio sequencer, the claims *)

(** C3: with the whole scale at hand (7 * num_octaves + 1 pitches)
    and a positive number of octaves, the ascent of the arpeggio is
    root, third and fifth of each octave and, after the fifth of the
    last octave, the tone an octave above its root: 3 * (num_octaves
    - 1) + 4 tones.  The full sequence is the ascent followed by its
    reverse without the top, and the ascent alone when the ascent has
    at most one pitch; for two octaves the ascent has 7 tones and the
    full sequence 13, in every major key. *)
Theorem arpeggio_full_scale (scale_pitches : list Pitch.t) (num_octaves : Z) (d : Pitch.t) :
  0 < num_octaves ->
  Z.of_nat (length scale_pitches) = 7 * num_octaves + 1 ->
  let arpeggio_up := arpeggio_up_of scale_pitches num_octaves in
  let all_arpeggio_pitches := arpeggio_all_pitches scale_pitches num_octaves in
  arpeggio_up
  = flat_map (octave_triad scale_pitches d) (seq 0 (Z.to_nat num_octaves))
    ++ [nth (7 * Z.to_nat num_octaves) scale_pitches d] /\
  Z.of_nat (length arpeggio_up) = 3 * (num_octaves - 1) + 4 /\
  all_arpeggio_pitches = arpeggio_up ++ rev (removelast arpeggio_up) /\
  Z.of_nat (length all_arpeggio_pitches) = 2 * (3 * (num_octaves - 1) + 4) - 1 /\
  (num_octaves = 2 ->
   length arpeggio_up = 7%nat /\ length all_arpeggio_pitches = 13%nat) /\
  (forall (pitches : list Pitch.t) (octaves : Z),
     (length (arpeggio_up_of pitches octaves) <= 1)%nat ->
     arpeggio_all_pitches pitches octaves = arpeggio_up_of pitches octaves) /\
  (forall (scale_object : MajorScale.t) (octave_start : Z),
     length (arpeggio_all_pitches
               (MajorScale.getPitches scale_object octave_start (octave_start + 2)) 2)
     = 13%nat).
Proof.
  intros Hn Hfull arpeggio_up all_arpeggio_pitches.
  pose proof (arpeggio_up_length scale_pitches num_octaves Hn Hfull) as Hup.
  pose proof (arpeggio_all_length scale_pitches num_octaves Hn Hfull) as Hall.
  fold arpeggio_up in Hup. fold all_arpeggio_pitches in Hall.
  split; [apply arpeggio_up_full; assumption|].
  split; [exact Hup|].
  split.
  { unfold all_arpeggio_pitches, arpeggio_all_pitches. fold arpeggio_up.
    destruct (Z.ltb_spec 1 (Z.of_nat (length arpeggio_up))); [reflexivity|lia]. }
  split; [exact Hall|].
  split; [intros ->; split; lia|].
  split.
  { intros pitches octaves Hshort. unfold arpeggio_all_pitches.
    destruct (Z.ltb_spec 1 (Z.of_nat (length (arpeggio_up_of pitches octaves)))); [lia|].
    apply app_nil_r. }
  intros scale_object octave_start.
  pose proof (arpeggio_all_length
                (MajorScale.getPitches scale_object octave_start (octave_start + 2)) 2
                ltac:(lia)) as Hkey.
  rewrite getPitches_length in Hkey by lia. specialize (Hkey ltac:(lia)). lia.
Qed.

Lemma arpeggio_full_scale_witness :
  map Pitch.nameWithOctave
      (arpeggio_up_of (MajorScale.getPitches (MajorScale.mk Pitch.B (-1)) 3 5) 2)
  = ["B-3"; "D4"; "F4"; "B-4"; "D5"; "F5"; "B-5"] /\
  length (arpeggio_all_pitches (MajorScale.getPitches (MajorScale.mk Pitch.B (-1)) 3 5) 2)
  = 13%nat.
Proof.
  split; [vm_compute; reflexivity|].
  pose proof (arpeggio_full_scale
                (MajorScale.getPitches (MajorScale.mk Pitch.B (-1)) 3 5) 2
                (Pitch.mk Pitch.C None 4) ltac:(lia) ltac:(vm_compute; reflexivity)) as H.
  cbv zeta in H. apply H.
Defined.

Lemma length_measures_of (title_text : string) (groups : list (list Note)) :
  length (measures_of title_text groups) = length groups.
Proof. rewrite <- (map_notes_measures_of title_text groups) at 2. rewrite length_map. reflexivity. Qed.

Section PackerFacts.

Variable notes_per_measure : Z.
Variables first_type title_text : string.
Hypothesis capacity_pos : 0 < notes_per_measure.

(** What the loop makes of a sequence that is not empty: the groups
    of the running figure and the final note, the pitches kept in
    order, and as many groups as the capacity asks for. *)
Lemma pack_rounds_facts (all_pitches : list Pitch.t) :
  all_pitches <> [] ->
  exists (groups : list (list Note)) (plast : Pitch.t),
    last all_pitches = Some plast /\
    measures_stream <$>
      for_enumerate (pack_round notes_per_measure first_type title_text
                                (Z.of_nat (length all_pitches)))
                    Packing_start 0 all_pitches
    = Some (Stream.mk [] (measures_of title_text (groups ++ [[spelled_note plast "whole"]]))) /\
    map pitch (concat (groups ++ [[spelled_note plast "whole"]]))
    = map (fun p => Some (respell p)) all_pitches /\
    Forall (group_ok notes_per_measure first_type) groups /\
    (forall (k : nat) (g : list Note),
       groups !! k = Some g -> (S k < length groups)%nat ->
       Z.of_nat (length g) = notes_per_measure) /\
    Z.of_nat (length groups)
    = (Z.of_nat (length all_pitches) + notes_per_measure - 2) / notes_per_measure.
Proof.
  intros Hne. destruct (snoc_of_nonempty all_pitches Hne) as [init [plast [-> [_ Hlast]]]].
  destruct (pack_rounds notes_per_measure first_type title_text capacity_pos init plast)
    as [groups [Hrun Hgroups]].
  exists groups, plast. split; [exact Hlast|]. split; [exact Hrun|].
  rewrite concat_app, !map_app, length_app. cbn [concat map app length].
  destruct Hgroups as [[-> ->]|[gs [g [-> HF]]]].
  - split; [reflexivity|]. split; [constructor|].
    split; [intros k g Hk; rewrite lookup_nil in Hk; discriminate Hk|].
    cbn [length]. symmetry. apply Z.div_small. lia.
  - pose proof HF as [Hfull Hcount Hok Hpitches].
    pose proof (Filled_open_ok _ _ _ _ _ HF) as [n [ns [Hg [Hle _]]]].
    assert (1 <= Z.of_nat (length g)) by (rewrite Hg; cbn [length]; lia).
    split; [rewrite Hpitches; reflexivity|]. split; [exact Hok|].
    split; [intros k g' Hk Hlt; exact (full_groups_lookup _ gs g k g' Hfull Hk Hlt)|].
    rewrite length_app. cbn [length].
    apply (Z.div_unique_pos _ _ _ (Z.of_nat (length g) - 1)); lia.
Qed.

End PackerFacts.

Lemma pack_keeps_pitches (notes_per_measure : Z) (first_type title_text : string)
    (all_pitches : list Pitch.t) :
  0 < notes_per_measure ->
  exists measures : list Measure,
    measures_stream <$>
      for_enumerate (pack_round notes_per_measure first_type title_text
                                (Z.of_nat (length all_pitches)))
                    Packing_start 0 all_pitches
    = Some (Stream.mk [] measures) /\
    map pitch (concat (map notes measures)) = map (fun p => Some (respell p)) all_pitches /\
    (all_pitches = [] -> measures = []) /\
    (all_pitches <> [] ->
     Z.of_nat (length measures)
     = (Z.of_nat (length all_pitches) + notes_per_measure - 2) / notes_per_measure + 1).
Proof.
  intros Hcap. destruct all_pitches as [|p l].
  - exists []. split; [reflexivity|]. split; [reflexivity|]. split; [reflexivity|].
    intros Hne. exfalso. apply Hne. reflexivity.
  - destruct (pack_rounds_facts notes_per_measure first_type title_text Hcap (p :: l)
                ltac:(discriminate))
      as [groups [plast [_ [Hrun [Hpitches [_ [_ Hcount]]]]]]].
    eexists. split; [exact Hrun|]. rewrite map_notes_measures_of, length_measures_of.
    split; [exact Hpitches|]. split; [discriminate|]. intros _.
    rewrite length_app. cbn [length] in *. lia.
Qed.



Lemma pack_scale_measures_witness :
  exists (groups : list (list Note)) (final : Note),
    pack_scale "C Major Scale" (scale_all_pitches (MajorScale.mk Pitch.C 0) 4 1)
    = Some (Stream.mk [] (measures_of "C Major Scale" (groups ++ [[final]]))) /\
    map length (groups ++ [[final]]) = [7; 7; 1]%nat.
Proof.
  destruct (pack_scale_measures "C Major Scale"
              (scale_all_pitches (MajorScale.mk Pitch.C 0) 4 1)
              ltac:(vm_compute; discriminate))
    as [groups [final [Hpack [Hnotes [_ [_ [_ [_ [_ [_ [_ [_ Hfifteen]]]]]]]]]]]].
  exists groups, final. split; [exact Hpack|].
  rewrite <- Hnotes. apply Hfifteen. reflexivity.
Defined.

(** ** Parts *)

Lemma append_measures_appended (ms : list Measure) (part : Part) :
  append_measures (Stream.mk [] ms) part
  = Stream.mk (Stream.at_start part) (Stream.appended part ++ map PartMeasure ms).
Proof.
  unfold append_measures, Stream.elements. cbn [Stream.at_start Stream.appended app].
  revert part. induction ms as [|m ms IH]; intros part; cbn [fold_left map].
  - rewrite app_nil_r. destruct part; reflexivity.
  - rewrite IH. unfold Stream.append. cbn [Stream.at_start Stream.appended].
    rewrite <- app_assoc. reflexivity.
Qed.

Lemma no_clef_among_notes (g : list Note) :
  existsb (fun e => match e with Clef _ => true | _ => false end) (map NoteElement g) = false.
Proof. induction g as [|n g IH]; [reflexivity|exact IH]. Qed.

Lemma scale_all_pitches_nonempty scale_object octave_start num_octaves :
  0 < num_octaves -> scale_all_pitches scale_object octave_start num_octaves <> [].
Proof.
  intros Hn Hnil. apply (f_equal (@length _)) in Hnil.
  unfold scale_all_pitches in Hnil. rewrite length_app, getPitches_length in Hnil by lia.
  cbn [length] in Hnil. lia.
Qed.

Lemma arpeggio_all_pitches_nonempty scale_object octave_start num_octaves :
  0 < num_octaves ->
  arpeggio_all_pitches
    (MajorScale.getPitches scale_object octave_start (octave_start + num_octaves)) num_octaves
  <> [].
Proof.
  intros Hn Hnil. apply (f_equal (@length _)) in Hnil.
  pose proof (arpeggio_all_length
                (MajorScale.getPitches scale_object octave_start (octave_start + num_octaves))
                num_octaves Hn) as Hlen.
  rewrite getPitches_length in Hlen by lia. specialize (Hlen ltac:(lia)).
  rewrite Hnil in Hlen. cbn [length] in Hlen. lia.
Qed.

(** C4 as stated fails for C major, one octave, on the piano: the
    part is built; the measure that follows the system break, the
    first of the arpeggio, carries a key signature and no clef, and
    the last element of the part is a measure, not a system break. *)
Lemma part_without_trailing_break :
  exists (part : Part) (first_arp : Measure),
    create_part_for_single_key_scales_arpeggios fromString_any "C" 1 "Piano" = Some part /\
    head (after_break (Stream.appended part)) = Some (PartMeasure first_arp) /\
    has_key first_arp = true /\
    has_clef first_arp = false /\
    is_system_break <$> last (Stream.appended part) = Some false.
Proof.
  eexists. eexists.
  split; [vm_compute; reflexivity|].
  split; [vm_compute; reflexivity|].
  repeat split; vm_compute; reflexivity.
Qed.

(** C4, amended: for a key and an instrument the library knows and
    a positive number of octaves, the part holds the instrument and a
    system break at its start, then the measures
    [create_scale_measures] returns for the key from the octave
    [determine_clef_and_octave] gives for the instrument, all of them
    and in order, a system break, and the measures
    [create_arpeggio_measures] returns from the same octave, and
    nothing after them.  The first measure of the scale carries the
    title, the clef chosen for the instrument and the key signature;
    the first measure of the arpeggio carries the title and the key
    signature; no measure of the arpeggio carries a clef, and no
    other measure carries anything but notes. *)
Theorem create_part_layout
    (fromString : string -> option Instrument)
    (key_signature : string) (num_octaves : Z) (instrument_name : string) (part : Part) :
  0 < num_octaves ->
  create_part_for_single_key_scales_arpeggios fromString key_signature num_octaves instrument_name
  = Some part ->
  exists (instr_obj : Instrument) (major_key_obj : Key) (major_scale_obj : MajorScale.t)
         (selected_clef : string) (octave_start : Z)
         (first_m : Measure) (scale_rest : list Measure)
         (first_arp : Measure) (arpeggio_rest : list Measure),
    fromString instrument_name = Some instr_obj /\
    Key_of key_signature "major" = Some major_key_obj /\
    MajorScale.of_key key_signature = Some major_scale_obj /\
    match determine_clef_and_octave instrument_name "right" with
    | ClefDict d => default ("TrebleClef", 4) (d !! "right")
    | ClefPair c => c
    end = (selected_clef, octave_start) /\
    create_scale_measures (key_signature +:+ " Major Scale")
                          major_scale_obj octave_start num_octaves
    = Some (Stream.mk [] (first_m :: scale_rest)) /\
    create_arpeggio_measures (key_signature +:+ " Major Arpeggio")
                             major_scale_obj octave_start num_octaves
    = Some (Stream.mk [] (first_arp :: arpeggio_rest)) /\
    Stream.at_start first_m = [TextExpression (key_signature +:+ " Major Scale") "above"] /\
    Stream.at_start first_arp = [TextExpression (key_signature +:+ " Major Arpeggio") "above"] /\
    Forall (fun m => Stream.at_start m = []) (scale_rest ++ arpeggio_rest) /\
    let first_m' :=
      Stream.insert0 (KeyElement major_key_obj) (Stream.insert0 (Clef selected_clef) first_m) in
    let first_arp' := Stream.insert0 (KeyElement major_key_obj) first_arp in
    part
    = Stream.mk [InstrumentElement instr_obj; SystemLayout true]
                (map PartMeasure (first_m' :: scale_rest)
                 ++ [SystemLayout true]
                 ++ map PartMeasure (first_arp' :: arpeggio_rest)) /\
    Stream.at_start first_m'
    = [TextExpression (key_signature +:+ " Major Scale") "above";
       Clef selected_clef; KeyElement major_key_obj] /\
    Stream.at_start first_arp'
    = [TextExpression (key_signature +:+ " Major Arpeggio") "above";
       KeyElement major_key_obj] /\
    Forall (fun m => has_clef m = false) (first_arp' :: arpeggio_rest).
Proof.
  intros Hn Hpart. unfold create_part_for_single_key_scales_arpeggios in Hpart.
  destruct (fromString instrument_name) as [instr_obj|]; [|discriminate Hpart].
  destruct (Key_of key_signature "major") as [major_key_obj|] eqn:Hkey; [|discriminate Hpart].
  destruct (MajorScale.of_key key_signature) as [major_scale_obj|] eqn:Hsc;
    [|discriminate Hpart].
  cbn [mbind option_bind] in Hpart.
  pose proof (selected_octave_range instrument_name) as Hoct.
  pose proof (of_key_alter _ _ Hsc) as Halt.
  destruct (match determine_clef_and_octave instrument_name "right" with
            | ClefDict d => default ("TrebleClef", 4) (d !! "right")
            | ClefPair c => c
            end) as [selected_clef octave_start].
  cbn [fst snd] in Hpart, Hoct.
  destruct (Z_le_gt_dec num_octaves 14) as [Hreach|Hbeyond];
    [|rewrite create_scale_measures_gives_up in Hpart by lia; discriminate Hpart].
  pose proof (create_scale_measures_octaves (key_signature +:+ " Major Scale")
                major_scale_obj octave_start num_octaves Halt ltac:(lia) ltac:(lia)) as Hs.
  pose proof (create_arpeggio_measures_octaves (key_signature +:+ " Major Arpeggio")
                major_scale_obj octave_start num_octaves Halt ltac:(lia) ltac:(lia)) as Ha.
  unfold arpeggio_measures_of in Ha.
  destruct (pack_scale_shape (key_signature +:+ " Major Scale")
              (scale_all_pitches major_scale_obj octave_start num_octaves)
              (scale_all_pitches_nonempty _ _ _ Hn)) as [sgroups [sfinal Hscale]].
  destruct (pack_arpeggio_shape (key_signature +:+ " Major Arpeggio")
              (arpeggio_all_pitches
                 (MajorScale.getPitches major_scale_obj octave_start (octave_start + num_octaves))
                 num_octaves)
              (arpeggio_all_pitches_nonempty _ _ _ Hn)) as [agroups [afinal Harp]].
  rewrite Hscale in Hs. rewrite Harp in Ha.
  destruct (snoc_is_cons sgroups [sfinal]) as [sg [srest Hsg]].
  destruct (snoc_is_cons agroups [afinal]) as [ag [arest Hag]].
  rewrite Hsg in Hs. rewrite Hag in Ha. cbn [measures_of] in Hs, Ha.
  rewrite Hs in Hpart. cbn [mbind option_bind] in Hpart.
  rewrite Ha in Hpart. cbn [mbind option_bind] in Hpart.
  cbn [Stream.truth Stream.elements Stream.at_start Stream.appended app
       Stream.update_first] in Hpart.
  rewrite !append_measures_appended in Hpart.
  injection Hpart as <-.
  exists instr_obj, major_key_obj, major_scale_obj, selected_clef, octave_start.
  eexists. exists (map (group_measure (key_signature +:+ " Major Scale") false) srest).
  eexists. exists (map (group_measure (key_signature +:+ " Major Arpeggio") false) arest).
  split; [reflexivity|]. split; [reflexivity|]. split; [reflexivity|].
  split; [reflexivity|]. split; [exact Hs|]. split; [exact Ha|].
  split; [reflexivity|]. split; [reflexivity|].
  split; [rewrite Forall_app, !Forall_map; split; apply Forall_forall; intros; reflexivity|].
  cbv zeta.
  split.
  { cbn [Stream.appended Stream.insert0 Stream.append Stream.empty Stream.at_start app map].
    rewrite <- app_assoc. reflexivity. }
  split; [reflexivity|]. split; [reflexivity|].
  constructor.
  - unfold has_clef, Stream.elements, Stream.insert0, group_measure.
    cbn [Stream.at_start Stream.appended app existsb orb].
    apply no_clef_among_notes.
  - rewrite Forall_map. apply Forall_forall. intros g _.
    unfold has_clef, Stream.elements, group_measure.
    cbn [Stream.at_start Stream.appended app]. apply no_clef_among_notes.
Qed.

Lemma create_part_layout_witness :
  exists (part : Part) (first_m first_arp : Measure) (scale_rest arpeggio_rest : list Measure),
    create_part_for_single_key_scales_arpeggios fromString_any "G" 1 "Tuba" = Some part /\
    create_scale_measures "G Major Scale" (MajorScale.mk Pitch.G 0) 1 1
    = Some (Stream.mk [] (first_m :: scale_rest)) /\
    create_arpeggio_measures "G Major Arpeggio" (MajorScale.mk Pitch.G 0) 1 1
    = Some (Stream.mk [] (first_arp :: arpeggio_rest)) /\
    Stream.appended part
    = map PartMeasure
        (Stream.insert0 (KeyElement (mkKey (MajorScale.mk Pitch.G 0) "major"))
           (Stream.insert0 (Clef "BassClef") first_m) :: scale_rest)
      ++ [SystemLayout true]
      ++ map PartMeasure
           (Stream.insert0 (KeyElement (mkKey (MajorScale.mk Pitch.G 0) "major")) first_arp
            :: arpeggio_rest) /\
    has_clef first_arp = false.
Proof.
  destruct (create_part_for_single_key_scales_arpeggios fromString_any "G" 1 "Tuba")
    as [part|] eqn:Hpart; [|vm_compute in Hpart; discriminate Hpart].
  destruct (create_part_layout fromString_any "G" 1 "Tuba" part ltac:(lia) Hpart)
    as [instr_obj [major_key_obj [major_scale_obj [selected_clef [octave_start
        [first_m [scale_rest [first_arp [arpeggio_rest
        [_ [Hkey [Hsc [Hsel [Hs [Ha [_ [Hta [_ [Hp [_ [_ Hclef]]]]]]]]]]]]]]]]]]]]].
  vm_compute in Hkey. injection Hkey as <-.
  vm_compute in Hsc. injection Hsc as <-.
  vm_compute in Hsel. injection Hsel as <- <-.
  exists part, first_m, first_arp, scale_rest, arpeggio_rest.
  split; [reflexivity|]. split; [exact Hs|]. split; [exact Ha|].
  split; [rewrite Hp; reflexivity|].
  unfold has_clef, Stream.elements. rewrite Hta.
  inversion Hclef as [|? ? H1 _]. unfold has_clef, Stream.elements, Stream.insert0 in H1.
  cbn [Stream.at_start Stream.appended] in H1. rewrite Hta in H1.
  cbn [app existsb orb] in H1 |- *. exact H1.
Defined.

(** * Further properties *)

(** ** The speller, further *)

Lemma pitch_space_respell (p : Pitch.t) :
  MajorScale.pitch_space (respell p) = MajorScale.pitch_space p.
Proof.
  destruct p as [st [a|] oct]; unfold respell, shown;
    cbn [Pitch.step Pitch.accidental Pitch.octave];
    destruct st; try reflexivity;
    destruct (Z.eqb_spec (Pitch.alter a) 1) as [Ha|Ha]; try reflexivity;
    unfold MajorScale.pitch_space; cbn; lia.
Qed.

Lemma ENHARM_MAP_respell (p : Pitch.t) : ENHARM_MAP !! Pitch.name (respell p) = None.
Proof.
  rewrite ENHARM_MAP_name.
  destruct p as [st [a|] oct]; unfold respell, shown;
    cbn [Pitch.step Pitch.accidental Pitch.octave];
    destruct st; try reflexivity;
    destruct (Pitch.alter a =? 1) eqn:Ha;
    cbn [Pitch.step Pitch.accidental show_accidental Pitch.alter];
    rewrite ?Ha; reflexivity.
Qed.

Lemma respell_shows_accidental (p : Pitch.t) (a : Pitch.Accidental) :
  Pitch.accidental (respell p) = Some a ->
  Pitch.displayStatus a = Some true /\ Pitch.displayType a = "normal".
Proof.
  destruct p as [st [a0|] oct]; unfold respell, shown;
    cbn [Pitch.step Pitch.accidental Pitch.octave];
    destruct st; try destruct (Pitch.alter a0 =? 1);
    cbn [Pitch.accidental]; intros Ha; try discriminate Ha;
    injection Ha as <-; split; reflexivity.
Qed.

(** X1: the speller never raises and changes neither what a note
    sounds nor how long: the note it leaves has the duration of the
    note it was given and a pitch of the same height in semitones (E
    sharp and F, B sharp and the C above, are the same key of the
    piano). *)
Theorem fix_enharmonic_spelling_keeps_sound (n : Note) :
  exists n' : Note,
    fix_enharmonic_spelling n = Some n' /\
    duration n' = duration n /\
    MajorScale.pitch_space <$> pitch n' = MajorScale.pitch_space <$> pitch n.
Proof.
  eexists. split; [apply fix_enharmonic_spelling_respell|].
  split; [reflexivity|]. cbn [pitch].
  destruct (pitch n) as [p|]; cbn [fmap option_fmap option_map]; [|reflexivity].
  rewrite pitch_space_respell. reflexivity.
Qed.

(** X2: what the speller leaves needs no more spelling and hides no
    accidental: the name of the resulting pitch is no key of
    [ENHARM_MAP], and an accidental on it has display status true and
    display type normal. *)
Theorem fix_enharmonic_spelling_result (n : Note) :
  exists n' : Note,
    fix_enharmonic_spelling n = Some n' /\
    forall p' : Pitch.t,
      pitch n' = Some p' ->
      ENHARM_MAP !! Pitch.name p' = None /\
      forall a : Pitch.Accidental,
        Pitch.accidental p' = Some a ->
        Pitch.displayStatus a = Some true /\ Pitch.displayType a = "normal".
Proof.
  eexists. split; [apply fix_enharmonic_spelling_respell|].
  cbn [pitch]. intros p' Hp'.
  destruct (pitch n) as [p|]; cbn [fmap option_fmap option_map] in Hp'; [|discriminate Hp'].
  injection Hp' as <-. split; [apply ENHARM_MAP_respell|].
  intros a. apply respell_shows_accidental.
Qed.

(** ** Clef and octave, further *)

(** X3: what [determine_clef_and_octave] can return.  A dictionary
    comes back for the piano only, with the right hand on the treble
    clef at octave 4 and the left on the bass clef at octave 2.  Every
    other name gets one pair: the percussion clef at octave 4 for the
    five unpitched instruments, the entry of [instrument_map] when
    there is one, the treble clef at octave 4 otherwise; the clef is
    always one of the four classes and the octave between 1 and 5. *)
Theorem determine_clef_and_octave_range (instrument_name part : string) :
  (instrument_name = "Piano" /\
   determine_clef_and_octave instrument_name part
   = ClefDict (list_to_map [("right", ("TrebleClef", 4)); ("left", ("BassClef", 2))]))
  \/
  (instrument_name <> "Piano" /\
   exists (selected_clef : string) (octave_start : Z),
     determine_clef_and_octave instrument_name part = ClefPair (selected_clef, octave_start) /\
     In selected_clef clef_classes /\
     1 <= octave_start <= 5 /\
     (elem_of instrument_name unpitched_percussion ->
      (selected_clef, octave_start) = ("PercussionClef", 4)) /\
     (~ elem_of instrument_name unpitched_percussion ->
      (selected_clef, octave_start)
      = default ("TrebleClef", 4) (instrument_map !! instrument_name))).
Proof.
  unfold determine_clef_and_octave.
  destruct (bool_decide_reflect (instrument_name = "Piano")) as [HP|HP];
    [left; split; [exact HP|reflexivity]|right; split; [exact HP|]].
  destruct (bool_decide_reflect (elem_of instrument_name unpitched_percussion)) as [Hu|Hu].
  - exists "PercussionClef", 4. split; [reflexivity|].
    split; [cbn; tauto|]. split; [lia|]. split; [reflexivity|contradiction].
  - destruct (instrument_map !! instrument_name) as [[c o]|] eqn:Hm; cbn [default from_option id].
    + exists c, o. split; [reflexivity|].
      destruct (instrument_map_values _ _ Hm) as [Hc Ho].
      split; [exact Hc|]. split; [exact Ho|]. split; [contradiction|reflexivity].
    + exists "TrebleClef", 4. split; [reflexivity|].
      split; [cbn; tauto|]. split; [lia|]. split; [contradiction|reflexivity].
Qed.

(** ** The sequencers, further *)

Lemma up_and_down_palindrome {X} (l : list X) :
  rev (l ++ rev (removelast l)) = l ++ rev (removelast l).
Proof.
  destruct l as [|x0 l0]; [reflexivity|].
  destruct (snoc_of_nonempty (x0 :: l0) ltac:(discriminate)) as [init [x [-> [-> _]]]].
  rewrite rev_app_distr, rev_involutive, rev_app_distr, <- app_assoc. reflexivity.
Qed.

(** X4: both sequences read the same backwards, whatever the scale
    pitches and the number of octaves: the way down is the way up in
    reverse. *)
Theorem sequences_are_palindromes :
  (forall (scale_object : MajorScale.t) (octave_start num_octaves : Z),
     rev (scale_all_pitches scale_object octave_start num_octaves)
     = scale_all_pitches scale_object octave_start num_octaves) /\
  (forall (scale_pitches : list Pitch.t) (num_octaves : Z),
     rev (arpeggio_all_pitches scale_pitches num_octaves)
     = arpeggio_all_pitches scale_pitches num_octaves).
Proof.
  split.
  - intros. apply up_and_down_palindrome.
  - intros scale_pitches num_octaves. unfold arpeggio_all_pitches.
    destruct (Z.ltb_spec 1 (Z.of_nat (length (arpeggio_up_of scale_pitches num_octaves))))
      as [Hlong|Hshort]; [apply up_and_down_palindrome|].
    rewrite app_nil_r.
    destruct (arpeggio_up_of scale_pitches num_octaves) as [|p [|q l]];
      [reflexivity|reflexivity|cbn [length] in Hshort; lia].
Qed.

Lemma py_index_In {X} (l : list X) (i : Z) (x : X) : py_index l i = Some x -> In x l.
Proof.
  unfold py_index. intros Hx. apply list_elem_of_In.
  destruct (0 <=? i); [|destruct (- Z.of_nat (length l) <=? i); [|discriminate Hx]];
    exact (list_elem_of_lookup_2 _ _ _ Hx).
Qed.

Lemma octave_tones_In (scale_pitches : list Pitch.t) (num_octaves o : Z) (p : Pitch.t) :
  In p (octave_tones scale_pitches num_octaves o) -> In p scale_pitches.
Proof.
  unfold octave_tones.
  destruct (mapM (py_index scale_pitches) (required_indices num_octaves o)) as [tones|] eqn:Hm;
    cbv [default from_option id]; [|contradiction].
  apply mapM_Some_1 in Hm. intros Hp. apply list_elem_of_In in Hp.
  apply list_elem_of_lookup_1 in Hp as [j Hj].
  destruct (Forall2_lookup_r _ _ _ _ _ Hm Hj) as [i [_ Hi]].
  exact (py_index_In _ _ _ Hi).
Qed.

Lemma octave_tones_length (scale_pitches : list Pitch.t) (num_octaves o : Z) :
  (length (octave_tones scale_pitches num_octaves o)
   <= length (required_indices num_octaves o))%nat.
Proof.
  unfold octave_tones.
  destruct (mapM (py_index scale_pitches) (required_indices num_octaves o)) as [tones|] eqn:Hm;
    cbv [default from_option id]; [|cbn [length]; lia].
  apply mapM_Some_1, Forall2_length in Hm. lia.
Qed.

Lemma inner_octaves_length (scale_pitches : list Pitch.t) (num_octaves : Z) (m : nat) :
  Z.of_nat m <= num_octaves - 1 ->
  (length (concat (map (octave_tones scale_pitches num_octaves) (map Z.of_nat (seq 0 m))))
   <= 3 * m)%nat.
Proof.
  induction m as [|m IH]; intros Hm; [cbn; lia|].
  rewrite seq_S, !map_app, concat_app, length_app. cbn [plus map concat].
  rewrite app_nil_r. specialize (IH ltac:(lia)).
  pose proof (octave_tones_length scale_pitches num_octaves (Z.of_nat m)) as Hlen.
  unfold required_indices in Hlen.
  destruct (Z.ltb_spec (Z.of_nat m) (num_octaves - 1)); [|lia].
  cbn [length] in Hlen. lia.
Qed.

Lemma removelast_In {X} (l : list X) (x : X) : In x (removelast l) -> In x l.
Proof.
  destruct l as [|x0 l0]; [contradiction|].
  destruct (snoc_of_nonempty (x0 :: l0) ltac:(discriminate)) as [init [y [-> [-> _]]]].
  intros Hx. apply in_or_app. left. exact Hx.
Qed.

(** X5: whatever the scale pitches, the arpeggio holds only pitches of
    the scale, and its ascent never more than 3 * (num_octaves - 1)
    + 4 of them; from a scale of fewer than five pitches no tone is
    taken at all, and the measure loop then returns an empty stream
    without raising. *)
Theorem arpeggio_within_scale
    (title_text : string) (scale_pitches : list Pitch.t) (num_octaves : Z) :
  (forall p : Pitch.t,
     In p (arpeggio_all_pitches scale_pitches num_octaves) -> In p scale_pitches) /\
  (0 < num_octaves ->
   Z.of_nat (length (arpeggio_up_of scale_pitches num_octaves)) <= 3 * (num_octaves - 1) + 4) /\
  ((length scale_pitches < 5)%nat ->
   arpeggio_all_pitches scale_pitches num_octaves = [] /\
   arpeggio_measures_of title_text scale_pitches num_octaves = Some Stream.empty).
Proof.
  assert (forall p, In p (arpeggio_up_of scale_pitches num_octaves) -> In p scale_pitches)
    as Hup.
  { intros p Hp. rewrite arpeggio_up_of_concat in Hp.
    apply in_concat in Hp as [tones [Htones Hp]].
    apply in_map_iff in Htones as [o [<- _]]. exact (octave_tones_In _ _ _ _ Hp). }
  split; [|split].
  - intros p Hp. unfold arpeggio_all_pitches in Hp. apply in_app_or in Hp as [Hp|Hp].
    + exact (Hup p Hp).
    + destruct (1 <? Z.of_nat (length (arpeggio_up_of scale_pitches num_octaves)));
        [|contradiction].
      apply in_rev, removelast_In in Hp. exact (Hup p Hp).
  - intros Hn. rewrite arpeggio_up_of_concat. unfold py_range.
    replace (Z.to_nat num_octaves) with (S (Z.to_nat (num_octaves - 1))) by lia.
    rewrite seq_S, !map_app, concat_app, length_app. cbn [plus map concat].
    rewrite app_nil_r.
    pose proof (inner_octaves_length scale_pitches num_octaves
                  (Z.to_nat (num_octaves - 1)) ltac:(lia)) as Hinner.
    pose proof (octave_tones_length scale_pitches num_octaves
                  (Z.of_nat (Z.to_nat (num_octaves - 1)))) as Hlast.
    unfold required_indices in Hlast.
    destruct (Z.of_nat (Z.to_nat (num_octaves - 1)) <? num_octaves - 1);
      cbn [length] in Hlast; lia.
  - intros Hshort.
    assert (arpeggio_up_of scale_pitches num_octaves = []) as Hnone.
    { rewrite arpeggio_up_of_concat. unfold py_range.
      induction (seq 0 (Z.to_nat num_octaves)) as [|o l IH]; [reflexivity|].
      cbn [map concat]. rewrite IH, app_nil_r.
      apply octave_tones_overrun. unfold required_indices.
      destruct (Z.of_nat o <? num_octaves - 1); right; right; left; lia. }
    assert (arpeggio_all_pitches scale_pitches num_octaves = []) as Hall
      by (unfold arpeggio_all_pitches; rewrite Hnone; reflexivity).
    split; [exact Hall|]. unfold arpeggio_measures_of. rewrite Hall. reflexivity.
Qed.

Lemma arpeggio_within_scale_witness :
  Z.of_nat (length (arpeggio_up_of (MajorScale.getPitches (MajorScale.mk Pitch.C 0) 4 5) 2))
  <= 3 * (2 - 1) + 4 /\
  arpeggio_measures_of "C Major Arpeggio"
    (firstn 4 (MajorScale.getPitches (MajorScale.mk Pitch.C 0) 4 5)) 1
  = Some Stream.empty.
Proof.
  split.
  - apply (arpeggio_within_scale "C Major Arpeggio"
             (MajorScale.getPitches (MajorScale.mk Pitch.C 0) 4 5) 2). lia.
  - apply (arpeggio_within_scale "C Major Arpeggio"
             (firstn 4 (MajorScale.getPitches (MajorScale.mk Pitch.C 0) 4 5)) 1).
    vm_compute. lia.
Defined.

Section MajorTriad.

Variable scale_object : MajorScale.t.
Variable octave_start num_octaves : Z.
Hypothesis octaves_pos : 0 < num_octaves.

Let scale_pitches :=
  MajorScale.getPitches scale_object octave_start (octave_start + num_octaves).
Let tonic := MajorScale.pitch_space (MajorScale.tonic_at scale_object octave_start).

Lemma pitch_space_nth (d : Pitch.t) (k : nat) (q r : Z) :
  Z.of_nat k = 7 * q + r -> 0 <= r < 7 -> Z.of_nat k <= 7 * num_octaves ->
  MajorScale.pitch_space (nth k scale_pitches d)
  = tonic + 12 * q + MajorScale.major_offset r.
Proof.
  intros Hk Hr Hle. unfold scale_pitches.
  rewrite nth_lookup, getPitches_lookup by lia. cbn [default from_option id].
  rewrite pitch_space_degree.
  replace (Z.of_nat k / 7) with q by (Z.div_mod_to_equations; lia).
  replace (Z.of_nat k mod 7) with r by (Z.div_mod_to_equations; lia).
  reflexivity.
Qed.

Lemma pitch_space_triads (d : Pitch.t) (l : list nat) :
  Forall (fun o => Z.of_nat o < num_octaves) l ->
  map MajorScale.pitch_space (flat_map (octave_triad scale_pitches d) l)
  = flat_map (fun o => [tonic + 12 * Z.of_nat o;
                        tonic + 12 * Z.of_nat o + 4;
                        tonic + 12 * Z.of_nat o + 7]) l.
Proof.
  induction 1 as [|o l Ho _ IH]; [reflexivity|].
  cbn [flat_map]. rewrite map_app, IH. f_equal. unfold octave_triad. cbn [map].
  rewrite (pitch_space_nth d (7 * o) (Z.of_nat o) 0),
          (pitch_space_nth d (7 * o + 2) (Z.of_nat o) 2),
          (pitch_space_nth d (7 * o + 4) (Z.of_nat o) 4) by lia.
  cbn [MajorScale.major_offset]. rewrite Z.add_0_r. reflexivity.
Qed.

Lemma pitch_space_arpeggio_up :
  map MajorScale.pitch_space (arpeggio_up_of scale_pitches num_octaves)
  = flat_map (fun o => [tonic + 12 * Z.of_nat o;
                        tonic + 12 * Z.of_nat o + 4;
                        tonic + 12 * Z.of_nat o + 7]) (seq 0 (Z.to_nat num_octaves))
    ++ [tonic + 12 * num_octaves].
Proof.
  assert (Z.of_nat (length scale_pitches) = 7 * num_octaves + 1) as Hfull
    by (unfold scale_pitches; rewrite getPitches_length by lia; lia).
  rewrite (arpeggio_up_full scale_pitches num_octaves octaves_pos Hfull
             (MajorScale.tonic_at scale_object octave_start)).
  rewrite map_app, pitch_space_triads.
  - cbn [map].
    rewrite (pitch_space_nth _ (7 * Z.to_nat num_octaves) num_octaves 0) by lia.
    cbn [MajorScale.major_offset]. rewrite Z.add_0_r. reflexivity.
  - apply Forall_forall. intros o Ho. apply list_elem_of_In, in_seq in Ho. lia.
Qed.

End MajorTriad.

(** X6: over a major scale the ascent of the arpeggio is the major
    triad of the tonic in each octave and the tonic on top: in
    semitones above the tonic at the starting octave, 0, 4 and 7 in
    the first octave, 12, 16 and 19 in the second, and so on, then
    12 * num_octaves. *)
Theorem arpeggio_is_major_triad
    (scale_object : MajorScale.t) (octave_start num_octaves : Z) :
  0 < num_octaves ->
  let tonic := MajorScale.pitch_space (MajorScale.tonic_at scale_object octave_start) in
  map MajorScale.pitch_space
      (arpeggio_up_of
         (MajorScale.getPitches scale_object octave_start (octave_start + num_octaves))
         num_octaves)
  = flat_map (fun o => [tonic + 12 * Z.of_nat o;
                        tonic + 12 * Z.of_nat o + 4;
                        tonic + 12 * Z.of_nat o + 7]) (seq 0 (Z.to_nat num_octaves))
    ++ [tonic + 12 * num_octaves].
Proof. intros Hn tonic. apply pitch_space_arpeggio_up. exact Hn. Qed.

Lemma arpeggio_is_major_triad_witness :
  map MajorScale.pitch_space
      (arpeggio_up_of (MajorScale.getPitches (MajorScale.mk Pitch.E (-1)) 3 5) 2)
  = [51; 55; 58; 63; 67; 70; 75].
Proof.
  exact (arpeggio_is_major_triad (MajorScale.mk Pitch.E (-1)) 3 2 ltac:(lia)).
Defined.

(** ** The measure loops, further *)

Lemma eighths_length (ns : list Note) :
  Forall (fun n' => duration n' = DurationType "eighth") ns ->
  (fold_right Qplus 0 (map (fun n => quarterLength (duration n)) ns)
   == Z.of_nat (length ns) # 2)%Q.
Proof.
  induction 1 as [|n ns Hn _ IH]; [reflexivity|].
  cbn [map fold_right length]. rewrite Hn, IH.
  change (quarterLength (DurationType "eighth")) with (1 # 2)%Q.
  unfold Qeq, Qplus. cbn [Qnum Qden]. lia.
Qed.

Lemma measure_length_group (title_text : string) (titled : bool) (g : list Note) :
  measure_length (group_measure title_text titled g)
  = fold_right Qplus 0%Q (map (fun n => quarterLength (duration n)) g).
Proof. unfold measure_length. rewrite notes_group_measure. reflexivity. Qed.

Lemma Forall_measures_of (P : Measure -> Prop) (title_text : string)
    (groups : list (list Note)) :
  (forall titled g, In g groups -> P (group_measure title_text titled g)) ->
  Forall P (measures_of title_text groups).
Proof.
  intros HP. destruct groups as [|g rest]; cbn [measures_of]; constructor.
  - apply HP. left. reflexivity.
  - rewrite Forall_map. apply Forall_forall. intros g' Hg'. apply HP. right.
    apply list_elem_of_In. exact Hg'.
Qed.

Lemma titled_first_measure title_text (groups : list (list Note)) (final : list Note) :
  exists first rest,
    measures_of title_text (groups ++ [final]) = first :: rest /\
    Stream.at_start first = [TextExpression title_text "above"] /\
    Forall (fun m => Stream.at_start m = []) rest.
Proof.
  destruct (snoc_is_cons groups final) as [g [rest ->]]. cbn [measures_of].
  eexists. eexists. split; [reflexivity|]. split; [reflexivity|].
  rewrite Forall_map. apply Forall_forall. intros; reflexivity.
Qed.

(** X7: a non-empty pitch sequence packed as an arpeggio.  The notes
    before the final one stand in groups of at most eight, every
    group but the last of exactly eight, all of eighth duration; the
    final note stands alone in a last measure, with whole duration;
    the first measure carries the title and no other does; the stream
    has (length + 6) / 8 + 1 measures and none is without notes. *)
Theorem pack_arpeggio_measures (title_text : string) (all_arpeggio_pitches : list Pitch.t) :
  all_arpeggio_pitches <> [] ->
  exists (groups : list (list Note)) (final : Note),
    let measures := measures_of title_text (groups ++ [[final]]) in
    pack_arpeggio title_text all_arpeggio_pitches = Some (Stream.mk [] measures) /\
    map notes measures = groups ++ [[final]] /\
    map pitch (concat groups) = map (fun p => Some (respell p)) (removelast all_arpeggio_pitches) /\
    Forall (fun g => g <> [] /\
                     Z.of_nat (length g) <= 8 /\
                     Forall (fun n => duration n = DurationType "eighth") g) groups /\
    (forall (k : nat) (g : list Note),
       groups !! k = Some g -> (S k < length groups)%nat -> Z.of_nat (length g) = 8) /\
    pitch final = respell <$> last all_arpeggio_pitches /\
    duration final = DurationType "whole" /\
    (exists first rest,
       measures = first :: rest /\
       Stream.at_start first = [TextExpression title_text "above"] /\
       Forall (fun m => Stream.at_start m = []) rest) /\
    Forall (fun m => notes m <> []) measures /\
    Z.of_nat (length measures) = (Z.of_nat (length all_arpeggio_pitches) + 6) / 8 + 1.
Proof.
  intros Hne.
  destruct (pack_rounds_facts 8 "eighth" title_text ltac:(lia) all_arpeggio_pitches Hne)
    as [groups [plast [Hlast [Hrun [Hpitches [Hok [Hfull Hcount]]]]]]].
  exists groups, (spelled_note plast "whole"). cbv zeta.
  rewrite map_notes_measures_of, length_measures_of, Hlast.
  destruct (snoc_of_nonempty all_arpeggio_pitches Hne) as [init [x [Hall [Hinit Hx]]]].
  assert (x = plast) as -> by congruence.
  split; [rewrite pack_arpeggio_rounds; exact Hrun|].
  split; [reflexivity|].
  split.
  { rewrite Hinit. rewrite Hall, concat_app, !map_app in Hpitches.
    cbn [concat map app] in Hpitches. apply app_inv_tail in Hpitches. exact Hpitches. }
  assert (Forall (fun g => g <> [] /\ Z.of_nat (length g) <= 8 /\
                           Forall (fun n => duration n = DurationType "eighth") g) groups)
    as Hgroups.
  { eapply Forall_impl; [exact Hok|]. intros g [n [ns [-> [Hle [Hn Hns]]]]].
    split; [discriminate|]. split; [exact Hle|]. constructor; assumption. }
  split; [exact Hgroups|]. split; [exact Hfull|].
  split; [reflexivity|]. split; [reflexivity|].
  split; [apply titled_first_measure|].
  split.
  { apply Forall_measures_of. intros titled g Hg. rewrite notes_group_measure.
    apply in_app_or in Hg as [Hg|[<-|[]]]; [|discriminate].
    exact (proj1 (proj1 (List.Forall_forall _ _) Hgroups g Hg)). }
  rewrite length_app. cbn [length]. rewrite Nat2Z.inj_add, Hcount.
  replace (Z.of_nat (length all_arpeggio_pitches) + 8 - 2)
    with (Z.of_nat (length all_arpeggio_pitches) + 6) by lia.
  reflexivity.
Qed.

Lemma pack_arpeggio_measures_witness :
  exists (groups : list (list Note)) (final : Note),
    pack_arpeggio "C Major Arpeggio"
      (arpeggio_all_pitches (MajorScale.getPitches (MajorScale.mk Pitch.C 0) 4 6) 2)
    = Some (Stream.mk [] (measures_of "C Major Arpeggio" (groups ++ [[final]]))) /\
    Z.of_nat (length (measures_of "C Major Arpeggio" (groups ++ [[final]]))) = 3.
Proof.
  destruct (pack_arpeggio_measures "C Major Arpeggio"
              (arpeggio_all_pitches (MajorScale.getPitches (MajorScale.mk Pitch.C 0) 4 6) 2)
              ltac:(vm_compute; discriminate))
    as [groups [final [Hpack [_ [_ [_ [_ [_ [_ [_ [_ Hcount]]]]]]]]]]].
  exists groups, final. split; [exact Hpack|exact Hcount].
Defined.

(** X8: neither measure loop loses, repeats or reorders a pitch.
    For any sequence, the notes of the measures read in order are the
    pitches of the sequence, each respelled; an empty sequence gives a
    stream without measures, a sequence of L pitches (L + 5) / 7 + 1
    measures as a scale and (L + 6) / 8 + 1 as an arpeggio. *)
Theorem packing_keeps_pitches (title_text : string) (all_pitches : list Pitch.t) :
  (exists measures : list Measure,
     pack_scale title_text all_pitches = Some (Stream.mk [] measures) /\
     map pitch (concat (map notes measures)) = map (fun p => Some (respell p)) all_pitches /\
     (all_pitches = [] -> measures = []) /\
     (all_pitches <> [] ->
      Z.of_nat (length measures) = (Z.of_nat (length all_pitches) + 5) / 7 + 1)) /\
  (exists measures : list Measure,
     pack_arpeggio title_text all_pitches = Some (Stream.mk [] measures) /\
     map pitch (concat (map notes measures)) = map (fun p => Some (respell p)) all_pitches /\
     (all_pitches = [] -> measures = []) /\
     (all_pitches <> [] ->
      Z.of_nat (length measures) = (Z.of_nat (length all_pitches) + 6) / 8 + 1)).
Proof.
  split.
  - destruct (pack_keeps_pitches 7 "quarter" title_text all_pitches ltac:(lia))
      as [measures [Hrun [Hpitches [Hnil Hcount]]]].
    exists measures. rewrite pack_scale_rounds. split; [exact Hrun|].
    split; [exact Hpitches|]. split; [exact Hnil|]. intros Hne. rewrite (Hcount Hne).
    f_equal. f_equal. lia.
  - destruct (pack_keeps_pitches 8 "eighth" title_text all_pitches ltac:(lia))
      as [measures [Hrun [Hpitches [Hnil Hcount]]]].
    exists measures. rewrite pack_arpeggio_rounds. split; [exact Hrun|].
    split; [exact Hpitches|]. split; [exact Hnil|]. intros Hne. rewrite (Hcount Hne).
    f_equal. f_equal. lia.
Qed.

(** ** Sequencer and loop together *)

Lemma scale_all_pitches_split scale_object octave_start num_octaves :
  0 < num_octaves ->
  exists init plast,
    scale_all_pitches scale_object octave_start num_octaves = init ++ [plast] /\
    Z.of_nat (length init) = 14 * num_octaves.
Proof.
  intros Hn.
  destruct (snoc_of_nonempty _ (scale_all_pitches_nonempty scale_object octave_start
                                  num_octaves Hn)) as [init [plast [Hall _]]].
  exists init, plast. split; [exact Hall|].
  apply (f_equal (@length _)) in Hall. unfold scale_all_pitches in Hall.
  rewrite getPitches_snoc in Hall by lia.
  rewrite removelast_last, !length_app, length_rev, length_map, length_seq in Hall.
  cbn [length] in Hall. lia.
Qed.

Lemma map_length_repeat {X} (c : nat) (l : list (list X)) :
  Forall (fun g => length g = c) l -> map length l = repeat c (length l).
Proof. induction 1 as [|g l Hg _ IH]; cbn [map length repeat]; [|rewrite Hg, IH]; reflexivity. Qed.

Lemma scale_group_is_a_bar (g : list Note) :
  group_ok 7 "quarter" g -> length g = 7%nat ->
  (fold_right Qplus 0 (map (fun n => quarterLength (duration n)) g) == 4)%Q.
Proof.
  intros [n [ns [-> [_ [Hn Hns]]]]] Hlen. cbn [map fold_right length] in *.
  rewrite Hn, (eighths_length ns Hns).
  replace (length ns) with 6%nat by lia. reflexivity.
Qed.

(** X9: the scale of a key in measures.  For each of the fifteen
    major keys, a starting octave from 0 on and one to fourteen
    octaves, [create_scale_measures] gives
    2 * num_octaves + 1 measures: 2 * num_octaves of seven notes,
    then the final note alone; and every one of them lasts four
    quarter notes, a quarter and six eighths or one whole note. *)
Theorem create_scale_measures_bars
    (title_text : string) (scale_object : MajorScale.t) (octave_start num_octaves : Z) :
  -7 <= MajorScale.sharps scale_object <= 7 ->
  0 <= octave_start ->
  0 < num_octaves <= 14 ->
  exists measures : list Measure,
    create_scale_measures title_text scale_object octave_start num_octaves
    = Some (Stream.mk [] measures) /\
    Z.of_nat (length measures) = 2 * num_octaves + 1 /\
    map (fun m => length (notes m)) measures
    = repeat 7%nat (Z.to_nat (2 * num_octaves)) ++ [1%nat] /\
    Forall (fun m => (measure_length m == 4)%Q) measures.
Proof.
  intros Halt Ho [Hn Hreach]. apply sharps_alter in Halt.
  rewrite create_scale_measures_octaves by lia.
  destruct (scale_all_pitches_split scale_object octave_start num_octaves Hn)
    as [init [plast [-> Hinit]]].
  destruct (pack_rounds 7 "quarter" title_text ltac:(lia) init plast)
    as [groups [Hrun [[-> _]|[gs [g [-> HF]]]]]]; [cbn [length] in Hinit; lia|].
  pose proof HF as [Hfull Hcount Hok _].
  pose proof (Filled_open_ok _ _ _ _ _ HF) as [n0 [ns [Hg [Hle _]]]].
  assert (1 <= Z.of_nat (length g)) as Hg1 by (rewrite Hg; cbn [length]; lia).
  assert (length g = 7%nat /\ Z.of_nat (length gs) = 2 * num_octaves - 1) as [Hg7 Hgs] by lia.
  assert (Forall (fun g' => length g' = 7%nat) (gs ++ [g])) as Hseven.
  { rewrite Forall_app. split; [|constructor; [exact Hg7|constructor]].
    eapply Forall_impl; [exact Hfull|]. cbn. intros; lia. }
  eexists. rewrite pack_scale_rounds. split; [exact Hrun|].
  rewrite length_measures_of, !length_app. cbn [length].
  split; [lia|]. split.
  - rewrite <- (map_map notes (@length Note)), map_notes_measures_of, map_app.
    rewrite (map_length_repeat 7 _ Hseven), length_app. cbn [length map].
    do 2 f_equal. lia.
  - apply Forall_measures_of. intros titled g' Hg'. rewrite measure_length_group.
    apply in_app_or in Hg' as [Hg'|[<-|[]]]; [|reflexivity].
    apply scale_group_is_a_bar.
    + exact (proj1 (List.Forall_forall _ _) Hok g' Hg').
    + exact (proj1 (List.Forall_forall _ _) Hseven g' Hg').
Qed.

Lemma create_scale_measures_bars_witness :
  exists measures : list Measure,
    create_scale_measures "A Major Scale" (MajorScale.mk Pitch.A 0) 3 2
    = Some (Stream.mk [] measures) /\
    map (fun m => length (notes m)) measures = [7; 7; 7; 7; 1]%nat.
Proof.
  destruct (create_scale_measures_bars "A Major Scale" (MajorScale.mk Pitch.A 0) 3 2
              ltac:(vm_compute; split; discriminate) ltac:(lia) ltac:(lia))
    as [measures [Hm [_ [Hnotes _]]]].
  exists measures. split; [exact Hm|exact Hnotes].
Defined.

Lemma last_rev_head {X} (l : list X) : last (rev l) = head l.
Proof. destruct l as [|x l]; [reflexivity|]. cbn [rev head]. apply last_snoc. Qed.

Lemma arpeggio_group_length (g : list Note) :
  group_ok 8 "eighth" g ->
  (fold_right Qplus 0 (map (fun n => quarterLength (duration n)) g) <= 4)%Q.
Proof.
  intros [n [ns [-> [Hle [Hn Hns]]]]].
  rewrite (eighths_length (n :: ns)) by (constructor; assumption).
  unfold Qle. cbn [Qnum Qden]. lia.
Qed.

(** X10: the arpeggio of a key in measures.  For each of the
    fifteen major keys, a starting octave from 0 on and one to
    fourteen octaves, the library returns the scale between the two
    tonics, the arpeggio sequence has 6 * num_octaves + 1 pitches and
    begins and ends on the tonic at the starting octave;
    [create_arpeggio_measures] lays it out, pitch for pitch and each
    pitch respelled, in (6 * num_octaves + 7) / 8 + 1 measures, none
    longer than four quarter notes. *)
Theorem create_arpeggio_measures_shape
    (title_text : string) (scale_object : MajorScale.t) (octave_start num_octaves : Z) :
  -7 <= MajorScale.sharps scale_object <= 7 ->
  0 <= octave_start ->
  0 < num_octaves <= 14 ->
  let scale_pitches :=
    MajorScale.getPitches scale_object octave_start (octave_start + num_octaves) in
  let all_arpeggio_pitches := arpeggio_all_pitches scale_pitches num_octaves in
  let tonic := MajorScale.tonic_at scale_object octave_start in
  scale_pitches_of scale_object octave_start num_octaves = Some scale_pitches /\
  Z.of_nat (length all_arpeggio_pitches) = 6 * num_octaves + 1 /\
  head all_arpeggio_pitches = Some tonic /\
  last all_arpeggio_pitches = Some tonic /\
  exists measures : list Measure,
    create_arpeggio_measures title_text scale_object octave_start num_octaves
    = Some (Stream.mk [] measures) /\
    Z.of_nat (length measures) = (6 * num_octaves + 7) / 8 + 1 /\
    map pitch (concat (map notes measures))
    = map (fun p => Some (respell p)) all_arpeggio_pitches /\
    Forall (fun m => (measure_length m <= 4)%Q) measures.
Proof.
  intros Halt Ho [Hn Hreach] scale_pitches all_arpeggio_pitches tonic.
  apply sharps_alter in Halt.
  assert (Z.of_nat (length scale_pitches) = 7 * num_octaves + 1) as Hfull
    by (unfold scale_pitches; rewrite getPitches_length by lia; lia).
  pose proof (arpeggio_all_length scale_pitches num_octaves Hn Hfull) as Hlen.
  pose proof (arpeggio_up_length scale_pitches num_octaves Hn Hfull) as Hup.
  fold all_arpeggio_pitches in Hlen.
  assert (all_arpeggio_pitches
          = arpeggio_up_of scale_pitches num_octaves
            ++ rev (removelast (arpeggio_up_of scale_pitches num_octaves))) as Hall.
  { unfold all_arpeggio_pitches, arpeggio_all_pitches.
    destruct (Z.ltb_spec 1 (Z.of_nat (length (arpeggio_up_of scale_pitches num_octaves))));
      [reflexivity|lia]. }
  assert (head all_arpeggio_pitches = Some tonic) as Hhead.
  { rewrite Hall, (arpeggio_up_full scale_pitches num_octaves Hn Hfull tonic).
    replace (Z.to_nat num_octaves) with (S (Z.to_nat (num_octaves - 1))) by lia.
    cbn [seq flat_map octave_triad app head]. f_equal.
    unfold scale_pitches. rewrite nth_lookup, getPitches_lookup by lia.
    apply degree_pitch_0. }
  split; [apply scale_pitches_of_octaves; lia|].
  split; [lia|]. split; [exact Hhead|].
  split; [rewrite <- Hhead, <- last_rev_head, Hall; f_equal; symmetry;
          apply up_and_down_palindrome|].
  assert (all_arpeggio_pitches <> []) as Hne
    by (intros Hnil; rewrite Hnil in Hlen; cbn [length] in Hlen; lia).
  destruct (pack_rounds_facts 8 "eighth" title_text ltac:(lia) all_arpeggio_pitches Hne)
    as [groups [plast [_ [Hrun [Hpitches [Hok [_ Hcount]]]]]]].
  eexists. rewrite create_arpeggio_measures_octaves by lia. unfold arpeggio_measures_of.
  fold scale_pitches. fold all_arpeggio_pitches. rewrite pack_arpeggio_rounds.
  split; [exact Hrun|]. rewrite map_notes_measures_of, length_measures_of.
  split.
  { rewrite length_app. cbn [length]. rewrite Nat2Z.inj_add, Hcount, Hlen.
    f_equal. f_equal. lia. }
  split; [exact Hpitches|].
  apply Forall_measures_of. intros titled g Hg. rewrite measure_length_group.
  apply in_app_or in Hg as [Hg|[<-|[]]]; [|vm_compute; discriminate].
  apply arpeggio_group_length. exact (proj1 (List.Forall_forall _ _) Hok g Hg).
Qed.

Lemma create_arpeggio_measures_shape_witness :
  exists measures : list Measure,
    create_arpeggio_measures "D Major Arpeggio" (MajorScale.mk Pitch.D 0) 4 3
    = Some (Stream.mk [] measures) /\
    Z.of_nat (length measures) = 4.
Proof.
  destruct (create_arpeggio_measures_shape "D Major Arpeggio" (MajorScale.mk Pitch.D 0) 4 3
              ltac:(vm_compute; split; discriminate) ltac:(lia) ltac:(lia))
    as [_ [_ [_ [_ [measures [Hm [Hcount _]]]]]]].
  exists measures. split; [exact Hm|exact Hcount].
Defined.

(** ** The rhythm line, further *)

Lemma respell_natural (p : Pitch.t) : Pitch.accidental p = None -> respell p = p.
Proof.
  destruct p as [st acc oct]. cbn [Pitch.accidental]. intros ->.
  destruct st; reflexivity.
Qed.

(** Every easy pitch, the default with them, is a pitch the library
    reads, and a natural one. *)
Lemma easiest_note_natural (instrument_name : string) :
  exists p : Pitch.t,
    Pitch.of_string (default "C4" (EASIEST_NOTE_MAP !! instrument_name)) = Some p /\
    Pitch.accidental p = None.
Proof.
  destruct (EASIEST_NOTE_MAP !! instrument_name) as [easiest_note|] eqn:Heasy;
    cbv [default from_option id]; [|eexists; split; vm_compute; reflexivity].
  unfold EASIEST_NOTE_MAP in Heasy. apply elem_of_list_to_map_2 in Heasy. revert Heasy.
  apply (proj1 (Forall_forall
                  (fun kv : string * string =>
                     exists p, Pitch.of_string kv.2 = Some p /\ Pitch.accidental p = None) _)).
  repeat (constructor; [eexists; split; vm_compute; reflexivity|]). constructor.
Qed.

Section RhythmLine.

Variables title_text easiest_note : string.
Variable p : Pitch.t.
Hypothesis easiest_note_reads : Pitch.of_string easiest_note = Some p.
Hypothesis easiest_note_plain : Pitch.accidental p = None.

Lemma rhythm_measure_notes (measure_durations : list Q) (current_measure : Measure) :
  rhythm_measure easiest_note current_measure measure_durations
  = Some (Stream.mk (Stream.at_start current_measure)
                    (Stream.appended current_measure
                     ++ map NoteElement (rhythm_notes p measure_durations))).
Proof.
  unfold rhythm_measure.
  match goal with |- foldl ?f0 _ _ = _ => set (f := f0) end.
  assert (forall m val,
            f (Some m) val
            = Some (Stream.append
                      (NoteElement (mkNote (Some p) (DurationLength (opFrac (val * 4))))) m))
    as Hstep.
  { intros m val. unfold f. cbn [mbind option_bind].
    rewrite easiest_note_reads. cbn [mbind option_bind].
    rewrite fix_enharmonic_spelling_respell. cbn [mbind option_bind].
    cbn [Note_of_pitch pitch duration fmap option_fmap option_map].
    rewrite (respell_natural p easiest_note_plain). reflexivity. }
  revert current_measure.
  induction measure_durations as [|val l IH]; intros current_measure; cbn [foldl].
  - cbn [rhythm_notes map]. rewrite app_nil_r. destruct current_measure; reflexivity.
  - rewrite Hstep, IH.
    unfold Stream.append. cbn [Stream.at_start Stream.appended rhythm_notes map].
    rewrite <- app_assoc. reflexivity.
Qed.

Lemma rhythm_rounds (l pre : list (list Q)) :
  for_enumerate (rhythm_round title_text easiest_note)
                (Stream.mk [] (measures_of title_text (map (rhythm_notes p) pre)))
                (Z.of_nat (length pre)) l
  = Some (Stream.mk [] (measures_of title_text (map (rhythm_notes p) (pre ++ l)))).
Proof.
  revert pre. induction l as [|measure_durations l IH]; intros pre; cbn [for_enumerate].
  - rewrite app_nil_r. reflexivity.
  - unfold rhythm_round. rewrite rhythm_measure_notes. cbn [mbind option_bind].
    replace (pre ++ measure_durations :: l) with ((pre ++ [measure_durations]) ++ l)
      by (rewrite <- app_assoc; reflexivity).
    rewrite <- (IH (pre ++ [measure_durations])). f_equal.
    + unfold Stream.append. cbn [Stream.at_start Stream.appended].
      rewrite map_app. cbn [map]. rewrite measures_of_snoc. do 3 f_equal.
      unfold group_measure. destruct pre as [|d0 pre]; reflexivity.
    + rewrite length_app. cbn [length]. lia.
Qed.

End RhythmLine.

Lemma opFrac_kept (val : Q) : kept_exactly val -> opFrac (val * 4) = Qred (val * 4).
Proof.
  intros [_ [_ Hden]]. unfold opFrac.
  destruct (Z.leb_spec (Z.pos (Qden (Qred (val * 4)))) DENOM_LIMIT); [reflexivity|lia].
Qed.

Lemma rhythm_notes_kept (p : Pitch.t) (custom_rhythm : list (list Q)) :
  Forall (Forall kept_exactly) custom_rhythm ->
  map (rhythm_notes p) custom_rhythm
  = map (map (fun val => mkNote (Some p) (DurationLength (Qred (val * 4))))) custom_rhythm.
Proof.
  intros Hkept. apply map_ext_Forall. eapply Forall_impl; [exact Hkept|].
  intros measure_durations Hm. unfold rhythm_notes. apply map_ext_Forall.
  eapply Forall_impl; [exact Hm|]. intros val Hval. cbn beta.
  rewrite (opFrac_kept val Hval). reflexivity.
Qed.

(** X11: the rhythm line for a pattern of duration values the
    library keeps exactly (positive, [val * 4] a number a float holds
    and of a denominator up to 65535), on any instrument the library
    finds.  The part holds the instrument and a system break at its
    start and one measure for each measure of the pattern, in order,
    empty ones too; a measure holds one note for each of its duration
    values, of four times the value in quarter notes, all on the easy
    pitch of the instrument (C4 when the table has none); the title
    is on the first measure and on no other. *)
Theorem create_custom_rhythm_part_measures
    (fromString : string -> option Instrument)
    (title_text : string) (custom_rhythm : list (list Q)) (instrument_name : string)
    (i : Instrument) :
  fromString instrument_name = Some i ->
  Forall (Forall kept_exactly) custom_rhythm ->
  exists (p : Pitch.t) (measures : list Measure),
    Pitch.of_string (default "C4" (EASIEST_NOTE_MAP !! instrument_name)) = Some p /\
    create_custom_rhythm_part fromString title_text custom_rhythm instrument_name
    = Some (Stream.mk [InstrumentElement i; SystemLayout true] (map PartMeasure measures)) /\
    length measures = length custom_rhythm /\
    map notes measures
    = map (map (fun val => mkNote (Some p) (DurationLength (Qred (val * 4))))) custom_rhythm /\
    map (@Stream.at_start MeasureElement) measures
    = match custom_rhythm with
      | [] => []
      | _ :: rest => [TextExpression title_text "above"] :: map (fun _ => []) rest
      end.
Proof.
  intros Hi Hkept. destruct (easiest_note_natural instrument_name) as [p [Hp Hplain]].
  exists p, (measures_of title_text (map (rhythm_notes p) custom_rhythm)).
  split; [exact Hp|]. split.
  - unfold create_custom_rhythm_part. rewrite Hi. cbn [mbind option_bind].
    pose proof (rhythm_rounds title_text _ p Hp Hplain custom_rhythm []) as Hrounds.
    cbn [map measures_of length app] in Hrounds. change (Z.of_nat 0) with 0 in Hrounds.
    unfold Stream.empty. rewrite Hrounds.
    cbn [mbind option_bind]. rewrite append_measures_appended. reflexivity.
  - rewrite length_measures_of, length_map, map_notes_measures_of.
    split; [reflexivity|]. split; [exact (rhythm_notes_kept p custom_rhythm Hkept)|].
    destruct custom_rhythm as [|d rest]; [reflexivity|].
    cbn [map measures_of group_measure Stream.at_start]. f_equal.
    rewrite !map_map. reflexivity.
Qed.

Lemma create_custom_rhythm_part_measures_witness :
  exists (p : Pitch.t) (measures : list Measure),
    create_custom_rhythm_part fromString_any "Rhythm" [[(1 # 4)%Q; (3 # 4)%Q]; []; [1%Q]] "Flute"
    = Some (Stream.mk [InstrumentElement (mkInstrument "Flute"); SystemLayout true]
                      (map PartMeasure measures)) /\
    Pitch.nameWithOctave p = "G4" /\
    map notes measures
    = [[mkNote (Some p) (DurationLength 1); mkNote (Some p) (DurationLength 3)]; [];
       [mkNote (Some p) (DurationLength 4)]].
Proof.
  assert (Forall (Forall kept_exactly) [[(1 # 4)%Q; (3 # 4)%Q]; []; [1%Q]]) as Hkept
    by (repeat constructor; vm_compute; discriminate).
  destruct (create_custom_rhythm_part_measures fromString_any "Rhythm"
              [[(1 # 4)%Q; (3 # 4)%Q]; []; [1%Q]] "Flute" (mkInstrument "Flute") eq_refl Hkept)
    as [p [measures [Hp [Hpart [_ [Hnotes _]]]]]].
  exists p, measures. split; [exact Hpart|].
  vm_compute in Hp. injection Hp as <-. split; [vm_compute; reflexivity|exact Hnotes].
Defined.

(** ** Parts and scores, further *)

Lemma pack_scale_total title_text all_pitches : is_Some (pack_scale title_text all_pitches).
Proof.
  destruct all_pitches as [|p l]; [eexists; reflexivity|].
  destruct (pack_scale_shape title_text (p :: l) ltac:(discriminate)) as [? [? ->]]. eauto.
Qed.

Section Scores.

Variable fromString : string -> option Instrument.
Variable num_octaves : Z.
Variable instrument_name : string.

Lemma score_fold_failed (keys : list string) :
  foldl (fun acc key_sig =>
           do scales_arpeggios_score <- acc;
           do part_for_key <-
             create_part_for_single_key_scales_arpeggios
               fromString key_sig num_octaves instrument_name;
           Some (Stream.append part_for_key scales_arpeggios_score))
        None keys = None.
Proof. induction keys as [|key keys IH]; [reflexivity|exact IH]. Qed.

Lemma score_fold (keys : list string) (parts : list Part) :
  foldl (fun acc key_sig =>
           do scales_arpeggios_score <- acc;
           do part_for_key <-
             create_part_for_single_key_scales_arpeggios
               fromString key_sig num_octaves instrument_name;
           Some (Stream.append part_for_key scales_arpeggios_score))
        (Some (Stream.mk [] parts)) keys
  = (fun more => Stream.mk [] (parts ++ more))
      <$> mapM (fun key_sig =>
                  create_part_for_single_key_scales_arpeggios
                    fromString key_sig num_octaves instrument_name) keys.
Proof.
  revert parts. induction keys as [|key keys IH]; intros parts; cbn [foldl mapM].
  - cbn. rewrite app_nil_r. reflexivity.
  - cbn [mbind option_bind].
    destruct (create_part_for_single_key_scales_arpeggios
                fromString key num_octaves instrument_name) as [part|];
      cbn [mbind option_bind]; [|apply score_fold_failed].
    change (Stream.append part (Stream.mk [] parts)) with (Stream.mk [] (parts ++ [part])).
    rewrite IH.
    destruct (mapM _ keys) as [more|]; cbn; [|reflexivity].
    rewrite <- app_assoc. reflexivity.
Qed.

End Scores.

(** X12: the score of [generate_scales_arpeggios_pdf] holds one part
    for each key, in the order of the keys, each the part
    [create_part_for_single_key_scales_arpeggios] builds for that key;
    and a score is built exactly when every key gives a part: one key
    that raises leaves no score at all. *)
Theorem generate_scales_arpeggios_pdf_parts
    (fromString : string -> option Instrument)
    (keys : list string) (num_octaves : Z) (instrument_name : string) :
  (forall score : Score,
     generate_scales_arpeggios_pdf fromString keys num_octaves instrument_name = Some score ->
     Stream.at_start score = [] /\
     length (Stream.appended score) = length keys /\
     Forall2 (fun key_sig part =>
                create_part_for_single_key_scales_arpeggios
                  fromString key_sig num_octaves instrument_name = Some part)
             keys (Stream.appended score)) /\
  (is_Some (generate_scales_arpeggios_pdf fromString keys num_octaves instrument_name) <->
   Forall (fun key_sig =>
             is_Some (create_part_for_single_key_scales_arpeggios
                        fromString key_sig num_octaves instrument_name)) keys).
Proof.
  assert (generate_scales_arpeggios_pdf fromString keys num_octaves instrument_name
          = (fun more => Stream.mk [] more)
              <$> mapM (fun key_sig =>
                          create_part_for_single_key_scales_arpeggios
                            fromString key_sig num_octaves instrument_name) keys) as ->
    by exact (score_fold fromString num_octaves instrument_name keys []).
  split.
  - intros score Hscore.
    destruct (mapM _ keys) as [parts|] eqn:Hparts; [|discriminate Hscore].
    cbn in Hscore. injection Hscore as <-. cbn [Stream.at_start Stream.appended].
    apply mapM_Some_1 in Hparts. split; [reflexivity|].
    split; [symmetry; exact (Forall2_length _ _ _ Hparts)|exact Hparts].
  - rewrite fmap_is_Some. apply mapM_is_Some.
Qed.

(** X13: when a part is built.  For a key the library reads, one
    of the fifteen major keys, and a number of octaves that is not
    negative, a part is built exactly when the library finds the
    instrument and the octaves are no more than fourteen: from
    fifteen on the library gives up on the scale and the call
    raises.  Within that reach neither the sequencers nor the
    measure loops raise. *)
Theorem create_part_succeeds_iff
    (fromString : string -> option Instrument)
    (key_signature : string) (num_octaves : Z) (instrument_name : string)
    (scale_object : MajorScale.t) :
  MajorScale.of_key key_signature = Some scale_object ->
  -7 <= MajorScale.sharps scale_object <= 7 ->
  0 <= num_octaves ->
  (is_Some (create_part_for_single_key_scales_arpeggios
              fromString key_signature num_octaves instrument_name)
   <-> is_Some (fromString instrument_name) /\ num_octaves <= 14).
Proof.
  intros Hkey Halt Hn. apply sharps_alter in Halt.
  unfold create_part_for_single_key_scales_arpeggios, Key_of. rewrite Hkey.
  destruct (fromString instrument_name) as [instr_obj|]; cbn [mbind option_bind];
    [|split; [intros [? H]; discriminate H|intros [[? H] _]; discriminate H]].
  pose proof (selected_octave_range instrument_name) as Hoct.
  destruct (Z_le_gt_dec num_octaves 14) as [Hreach|Hbeyond].
  - rewrite create_scale_measures_octaves, create_arpeggio_measures_octaves by lia.
    unfold arpeggio_measures_of.
    split; [intros _; split; [eauto|exact Hreach]|intros _].
    match goal with
    | |- context [pack_scale ?t ?l] => destruct (pack_scale_total t l) as [scale_measures ->]
    end.
    cbn [mbind option_bind].
    match goal with
    | |- context [pack_arpeggio ?t ?l] =>
        destruct (pack_arpeggio_total t l) as [arpeggio_measures ->]
    end.
    cbn [mbind option_bind]. eauto.
  - rewrite create_scale_measures_gives_up by lia. cbn [mbind option_bind].
    split; [intros [? H]; discriminate H|intros [_ H]; lia].
Qed.

Lemma create_part_succeeds_iff_witness :
  is_Some (create_part_for_single_key_scales_arpeggios fromString_any "Bb" 2 "Piano") /\
  MajorScale.of_key "Bb" = Some (MajorScale.mk Pitch.B (-1)).
Proof.
  split; [|reflexivity].
  apply (create_part_succeeds_iff fromString_any "Bb" 2 "Piano" (MajorScale.mk Pitch.B (-1))
           eq_refl ltac:(vm_compute; split; discriminate) ltac:(lia)).
  split; [eexists; reflexivity|lia].
Defined.

Lemma scale_all_pitches_zero (scale_object : MajorScale.t) (octave_start : Z) :
  scale_all_pitches scale_object octave_start 0 = [MajorScale.tonic_at scale_object octave_start].
Proof.
  unfold scale_all_pitches. rewrite (getPitches_snoc scale_object octave_start 0) by lia.
  rewrite Z.add_0_r. reflexivity.
Qed.

Lemma pack_scale_single (title_text : string) (p : Pitch.t) :
  pack_scale title_text [p]
  = Some (Stream.mk [] [Stream.mk [TextExpression title_text "above"]
                                 [NoteElement (spelled_note p "whole")]]).
Proof.
  unfold pack_scale. cbn [length for_enumerate]. unfold scale_round, last_note_round.
  cbn [Z.of_nat Pos.of_succ_nat Z.sub Z.add Z.opp Z.pos_sub Z.eqb].
  rewrite new_note_spelled. reflexivity.
Qed.

(** X14: no octave at all.  With [num_octaves] zero the scale is the
    tonic alone, laid out as one measure that carries the title, the
    clef and the key signature and holds the tonic as a whole note;
    the arpeggio has no tone and no measure, so the part ends on the
    system break that follows the scale. *)
Theorem create_part_zero_octaves
    (fromString : string -> option Instrument)
    (key_signature instrument_name : string) (i : Instrument) (scale_object : MajorScale.t) :
  fromString instrument_name = Some i ->
  MajorScale.of_key key_signature = Some scale_object ->
  let selected :=
    match determine_clef_and_octave instrument_name "right" with
    | ClefDict d => default ("TrebleClef", 4) (d !! "right")
    | ClefPair c => c
    end in
  create_part_for_single_key_scales_arpeggios fromString key_signature 0 instrument_name
  = Some (Stream.mk
            [InstrumentElement i; SystemLayout true]
            [PartMeasure
               (Stream.mk
                  [TextExpression (key_signature +:+ " Major Scale") "above";
                   Clef selected.1;
                   KeyElement (mkKey scale_object "major")]
                  [NoteElement
                     (mkNote (Some (respell (MajorScale.tonic_at scale_object selected.2)))
                             (DurationType "whole"))]);
             SystemLayout true]).
Proof.
  intros Hi Hkey selected.
  unfold create_part_for_single_key_scales_arpeggios, Key_of. rewrite Hi, Hkey.
  cbn [mbind option_bind]. fold selected.
  pose proof (selected_octave_range instrument_name) as Hoct. fold selected in Hoct.
  pose proof (of_key_alter _ _ Hkey) as Halt.
  rewrite create_scale_measures_octaves, create_arpeggio_measures_octaves by lia.
  rewrite scale_all_pitches_zero, pack_scale_single.
  cbn [mbind option_bind]. reflexivity.
Qed.

Lemma create_part_zero_octaves_witness :
  create_part_for_single_key_scales_arpeggios fromString_any "F#" 0 "Cello"
  = Some (Stream.mk
            [InstrumentElement (mkInstrument "Cello"); SystemLayout true]
            [PartMeasure
               (Stream.mk
                  [TextExpression "F# Major Scale" "above";
                   Clef "BassClef";
                   KeyElement (mkKey (MajorScale.mk Pitch.F 1) "major")]
                  [NoteElement
                     (mkNote (Some (Pitch.mk Pitch.F
                                      (Some (Pitch.mkAccidental 1 (Some true) "normal")) 2))
                             (DurationType "whole"))]);
             SystemLayout true]).
Proof.
  exact (create_part_zero_octaves fromString_any "F#" "Cello" (mkInstrument "Cello")
           (MajorScale.mk Pitch.F 1) eq_refl eq_refl).
Defined.

Lemma pack_scale_first_note (title_text : string) (p0 p1 : Pitch.t) (rest : list Pitch.t) :
  exists (ns : list Note) (more : list Measure),
    pack_scale title_text (p0 :: p1 :: rest)
    = Some (Stream.mk [] (group_measure title_text true (spelled_note p0 "quarter" :: ns)
                          :: more)).
Proof.
  destruct (pack_rounds_facts 7 "quarter" title_text ltac:(lia) (p0 :: p1 :: rest)
              ltac:(discriminate))
    as [groups [plast [_ [Hrun [Hpitches [Hok [_ Hcount]]]]]]].
  destruct groups as [|g groups].
  { exfalso. cbn [length] in Hcount.
    assert (1 <= (Z.of_nat (S (S (length rest))) + 7 - 2) / 7)
      by (apply Z.div_le_lower_bound; lia).
    lia. }
  inversion Hok as [|? ? [n0 [ns [Hg [_ [Hn0 _]]]]] _]; subst.
  cbn [app concat map] in Hpitches. injection Hpitches as Hp0 _.
  exists ns, (map (group_measure title_text false) (groups ++ [[spelled_note plast "whole"]])).
  rewrite pack_scale_rounds, Hrun. cbn [app measures_of].
  destruct n0 as [pitch0 duration0]. cbn [pitch duration] in Hp0, Hn0. subst.
  reflexivity.
Qed.

Lemma notes_insert0 (e : MeasureElement) (m : Measure) :
  note_of e = None -> notes (Stream.insert0 e m) = notes m.
Proof.
  intros He. unfold notes, Stream.elements, Stream.insert0.
  cbn [Stream.at_start Stream.appended]. rewrite !omap_app.
  destruct e; try discriminate He; simpl; rewrite app_nil_r; reflexivity.
Qed.

Lemma part_measures_append (e : PartElement) (part : Part) :
  part_measures (Stream.append e part)
  = part_measures part ++ match e with PartMeasure m => [m] | _ => [] end.
Proof.
  unfold part_measures, Stream.elements, Stream.append.
  cbn [Stream.at_start Stream.appended]. rewrite app_assoc, omap_app.
  destruct e; reflexivity.
Qed.

Lemma part_measures_append_measures (measures : Stream.t Measure) (part : Part) :
  part_measures (append_measures measures part)
  = part_measures part ++ Stream.elements measures.
Proof.
  unfold append_measures. revert part.
  induction (Stream.elements measures) as [|m l IH]; intros part; cbn [fold_left].
  - rewrite app_nil_r. reflexivity.
  - rewrite IH, part_measures_append, <- app_assoc. reflexivity.
Qed.

(** X15: where the scale of a part starts.  For a positive number of
    octaves the first measure of the part carries the title, the clef
    [determine_clef_and_octave] gives for the instrument (the right
    hand of its dictionary for the piano) and the key signature, and
    its first note is the tonic of the key at the octave given with
    that clef, respelled, as a quarter note. *)
Theorem create_part_starts_on_tonic
    (fromString : string -> option Instrument)
    (key_signature : string) (num_octaves : Z) (instrument_name : string)
    (part : Part) (scale_object : MajorScale.t) :
  0 < num_octaves ->
  MajorScale.of_key key_signature = Some scale_object ->
  create_part_for_single_key_scales_arpeggios fromString key_signature num_octaves instrument_name
  = Some part ->
  let selected :=
    match determine_clef_and_octave instrument_name "right" with
    | ClefDict d => default ("TrebleClef", 4) (d !! "right")
    | ClefPair c => c
    end in
  exists (first_m : Measure) (rest : list Measure) (ns : list Note),
    part_measures part = first_m :: rest /\
    Stream.at_start first_m
    = [TextExpression (key_signature +:+ " Major Scale") "above";
       Clef selected.1;
       KeyElement (mkKey scale_object "major")] /\
    notes first_m
    = mkNote (Some (respell (MajorScale.tonic_at scale_object selected.2)))
             (DurationType "quarter") :: ns.
Proof.
  intros Hn Hkey Hpart selected.
  unfold create_part_for_single_key_scales_arpeggios, Key_of in Hpart.
  destruct (fromString instrument_name) as [instr_obj|]; [|discriminate Hpart].
  rewrite Hkey in Hpart. cbn [mbind option_bind] in Hpart. fold selected in Hpart.
  pose proof (selected_octave_range instrument_name) as Hoct. fold selected in Hoct.
  pose proof (of_key_alter _ _ Hkey) as Halt.
  destruct (Z_le_gt_dec num_octaves 14) as [Hreach|Hbeyond];
    [|rewrite create_scale_measures_gives_up in Hpart by lia; discriminate Hpart].
  rewrite create_scale_measures_octaves in Hpart by lia.
  assert (exists p1 more, scale_all_pitches scale_object selected.2 num_octaves
                          = MajorScale.tonic_at scale_object selected.2 :: p1 :: more)
    as [p1 [more Hall]].
  { unfold scale_all_pitches. rewrite getPitches_snoc by lia.
    replace (Z.to_nat (7 * num_octaves)) with (S (S (Z.to_nat (7 * num_octaves - 2)))) by lia.
    cbn [seq map app]. rewrite degree_pitch_0. eauto. }
  rewrite Hall in Hpart.
  destruct (pack_scale_first_note (key_signature +:+ " Major Scale")
              (MajorScale.tonic_at scale_object selected.2) p1 more)
    as [ns [measures Hscale]].
  rewrite Hscale in Hpart. cbn [mbind option_bind] in Hpart.
  destruct (create_arpeggio_measures _ _ _ _) as [arpeggio_measures|];
    [|discriminate Hpart].
  set (first_m :=
         Stream.insert0 (KeyElement (mkKey scale_object "major"))
           (Stream.insert0 (Clef selected.1)
              (group_measure (key_signature +:+ " Major Scale") true
                 (spelled_note (MajorScale.tonic_at scale_object selected.2) "quarter" :: ns))))
    in *.
  assert (notes first_m
          = spelled_note (MajorScale.tonic_at scale_object selected.2) "quarter" :: ns)
    as Hnotes.
  { unfold first_m. rewrite !notes_insert0 by reflexivity. apply notes_group_measure. }
  cbn [mbind option_bind Stream.truth Stream.elements Stream.at_start Stream.appended app
       Stream.update_first] in Hpart.
  injection Hpart as <-.
  match goal with |- context [if ?b then _ else _] => destruct b end;
    exists first_m; eexists; exists ns;
    (split; [|split; [reflexivity|exact Hnotes]]);
    rewrite ?part_measures_append_measures, part_measures_append,
            part_measures_append_measures;
    cbn [Stream.elements Stream.at_start Stream.appended app];
    rewrite ?app_nil_r; cbn [app]; reflexivity.
Qed.

Lemma create_part_starts_on_tonic_witness :
  exists (part : Part) (first_m : Measure) (rest : list Measure) (ns : list Note),
    create_part_for_single_key_scales_arpeggios fromString_any "Eb" 2 "Piano" = Some part /\
    part_measures part = first_m :: rest /\
    Stream.at_start first_m
    = [TextExpression "Eb Major Scale" "above"; Clef "TrebleClef";
       KeyElement (mkKey (MajorScale.mk Pitch.E (-1)) "major")] /\
    notes first_m
    = mkNote (Some (Pitch.mk Pitch.E (Some (Pitch.mkAccidental (-1) (Some true) "normal")) 4))
             (DurationType "quarter") :: ns.
Proof.
  destruct (create_part_for_single_key_scales_arpeggios fromString_any "Eb" 2 "Piano")
    as [part|] eqn:Hpart; [|vm_compute in Hpart; discriminate Hpart].
  destruct (create_part_starts_on_tonic fromString_any "Eb" 2 "Piano" part
              (MajorScale.mk Pitch.E (-1)) ltac:(lia) eq_refl Hpart)
    as [first_m [rest [ns [Hm [Hstart Hnotes]]]]].
  exists part, first_m, rest, ns. split; [reflexivity|].
  split; [exact Hm|]. split; [exact Hstart|exact Hnotes].
Defined.
